(** * Lazy-propagation segment tree (data_structures/segment_tree.hpp)

    A shallow embedding of [class SegmentTree] and a verification of its
    range-minimum / range-add behaviour against a naive array simulation.

    Modelling conventions.
    - [int] is [long long] (utilities/common.hpp, [#define int long long]).
      The top-level definitions compute on [Z] with exact arithmetic; they
      describe the executions in which no addition leaves the 64-bit range,
      and the results stated about them are those on which wrap-around has
      no bearing (answers being equal, frames, sizes, bounds, definedness).
      [Module Machine64] gives the same member functions with the
      additions and subtractions wrapping around modulo 2^64, as the
      compiled code does; the results that depend on the value of a sum
      are proved there, under the hypothesis that the elements of the
      array stay within [long long].  The sentinel [INF = 1e18] is an ordinary value of
      the type and is modelled as such.
    - [vi] is [std::vector<long long>], modelled by [list Z].  [operator[]]
      outside the vector is undefined behaviour: reads and writes are
      checked and return [None] there.
    - The recursive member functions take a [fuel] argument bounding the
      recursion depth; the public entry points supply [S n], and running out
      of fuel is [None] as well.  All results below are of the form
      "returns [Some ...]". *)

From Stdlib Require Import ZArith Lia List Bool Ascii.
From stdpp Require Import base option list.

Open Scope Z_scope.

(** ** Vectors with checked indexing *)

Module Vec.

Definition rd (v : list Z) (i : Z) : option Z :=
  if 0 <=? i then v !! Z.to_nat i else None.

Definition wr (v : list Z) (i x : Z) : option (list Z) :=
  if (0 <=? i) && (i <? Z.of_nat (length v))
  then Some (<[Z.to_nat i := x]> v) else None.

(** Total read used in specifications only (0 outside the vector). *)
Definition get (v : list Z) (i : Z) : Z := default 0 (rd v i).

Definition size (v : list Z) : Z := Z.of_nat (length v).

End Vec.

(** ** The class *)

(** [const ll INF = 1e18;] *)
Definition INF : Z := 10 ^ 18.

(** [vi ar, segment_tree, lazy; int n;] *)
Record SegmentTree : Type := MkSegmentTree {
  ar : list Z;
  segment_tree : list Z;
  lazy : list Z;
  n : Z
}.

Definition set_ar (t : SegmentTree) (i x : Z) : option SegmentTree :=
  v ← Vec.wr (ar t) i x;
  Some (MkSegmentTree v (segment_tree t) (lazy t) (n t)).

Definition set_tree (t : SegmentTree) (i x : Z) : option SegmentTree :=
  v ← Vec.wr (segment_tree t) i x;
  Some (MkSegmentTree (ar t) v (lazy t) (n t)).

Definition set_lazy (t : SegmentTree) (i x : Z) : option SegmentTree :=
  v ← Vec.wr (lazy t) i x;
  Some (MkSegmentTree (ar t) (segment_tree t) v (n t)).

(** [(a + b) / 2] on [long long] truncates toward zero. *)
Definition midpoint (a b : Z) : Z := Z.quot (a + b) 2.

Fixpoint buildTree (fuel : nat) (start_index end_index segment_index : Z)
    (t : SegmentTree) : option SegmentTree :=
  match fuel with
  | O => None
  | S fuel =>
    if start_index =? end_index then
      a ← Vec.rd (ar t) start_index;
      set_tree t segment_index a
    else
      let mid := midpoint start_index end_index in
      t ← buildTree fuel start_index mid (2 * segment_index) t;
      t ← buildTree fuel (mid + 1) end_index (2 * segment_index + 1) t;
      a ← Vec.rd (segment_tree t) (2 * segment_index);
      b ← Vec.rd (segment_tree t) (2 * segment_index + 1);
      set_tree t segment_index (Z.min a b)
  end.

(** The constructor [SegmentTree(vi& arr)]. *)
Definition build (arr : list Z) : option SegmentTree :=
  let n := Vec.size arr in
  let t := MkSegmentTree arr (replicate (Z.to_nat (4 * n)) INF)
                             (replicate (Z.to_nat (4 * n)) 0) n in
  buildTree (S (Z.to_nat n)) 0 (n - 1) 1 t.

Definition push (node start end_ : Z) (t : SegmentTree) : option SegmentTree :=
  ln ← Vec.rd (lazy t) node;
  if ln =? 0 then Some t
  else
    tn ← Vec.rd (segment_tree t) node;
    t ← set_tree t node (tn + ln);
    t ← (if start =? end_ then Some t
         else
           a ← Vec.rd (lazy t) (2 * node);
           t ← set_lazy t (2 * node) (a + ln);
           b ← Vec.rd (lazy t) (2 * node + 1);
           set_lazy t (2 * node + 1) (b + ln));
    set_lazy t node 0.

Fixpoint rangeUpdate (fuel : nat) (node start end_ l r val : Z)
    (t : SegmentTree) : option SegmentTree :=
  match fuel with
  | O => None
  | S fuel =>
    t ← push node start end_ t;
    if (start >? end_) || (start >? r) || (end_ <? l) then Some t
    else if (start >=? l) && (end_ <=? r) then
      a ← Vec.rd (lazy t) node;
      t ← set_lazy t node (a + val);
      push node start end_ t
    else
      let mid := midpoint start end_ in
      t ← rangeUpdate fuel (2 * node) start mid l r val t;
      t ← rangeUpdate fuel (2 * node + 1) (mid + 1) end_ l r val t;
      a ← Vec.rd (segment_tree t) (2 * node);
      b ← Vec.rd (segment_tree t) (2 * node + 1);
      set_tree t node (Z.min a b)
  end.

Fixpoint query (fuel : nat) (start_index end_index segment_index
    query_start query_end : Z) (t : SegmentTree) : option (Z * SegmentTree) :=
  match fuel with
  | O => None
  | S fuel =>
    t ← push segment_index start_index end_index t;
    if (query_end <? start_index) || (query_start >? end_index)
    then Some (INF, t)
    else if (query_start <=? start_index) && (end_index <=? query_end) then
      a ← Vec.rd (segment_tree t) segment_index;
      Some (a, t)
    else
      let mid := midpoint start_index end_index in
      '(left_, t) ← query fuel start_index mid (2 * segment_index)
                         query_start query_end t;
      '(right_, t) ← query fuel (mid + 1) end_index (2 * segment_index + 1)
                          query_start query_end t;
      Some (Z.min left_ right_, t)
  end.

Definition depth_fuel (t : SegmentTree) : nat := S (Z.to_nat (n t)).

Definition rangeMin (l r : Z) (t : SegmentTree) : option (Z * SegmentTree) :=
  query (depth_fuel t) 0 (n t - 1) 1 l r t.

Definition updateRange (l r val : Z) (t : SegmentTree) : option SegmentTree :=
  rangeUpdate (depth_fuel t) 1 0 (n t - 1) l r val t.

Definition pointUpdate (pos val : Z) (t : SegmentTree) : option SegmentTree :=
  a ← Vec.rd (ar t) pos;
  t ← rangeUpdate (depth_fuel t) 1 0 (n t - 1) pos pos (val - a) t;
  set_ar t pos val.

(** ** Specification-level notions *)

(** Stored value and pending delta of a node, as total functions. *)
Definition Tv (t : SegmentTree) (i : Z) : Z := Vec.get (segment_tree t) i.
Definition Lv (t : SegmentTree) (i : Z) : Z := Vec.get (lazy t) i.

(** Both node arrays have [m] slots. *)
Definition sized (t : SegmentTree) (m : Z) : Prop :=
  Vec.size (segment_tree t) = m /\ Vec.size (lazy t) = m.

(** A list seen as a function on indices. *)
Definition arrf (a : list Z) : Z -> Z := fun k => Vec.get a k.

(** Minimum of [f] over [s], [s+1], ..., [s+k]. *)
Fixpoint minfrom (f : Z -> Z) (s : Z) (k : nat) : Z :=
  match k with
  | O => f s
  | S k => Z.min (f s) (minfrom f (s + 1) k)
  end.

(** Minimum of [f] over the inclusive index range [[s, e]] ([s <= e]). *)
Definition minrange (f : Z -> Z) (s e : Z) : Z := minfrom f s (Z.to_nat (e - s)).

(** Adding [v] to every index of [[l, r]]. *)
Definition upd (f : Z -> Z) (l r v : Z) : Z -> Z :=
  fun k => if (l <=? k) && (k <=? r) then f k + v else f k.

(** The answer of [query] at a node covering [[s, e]], for the query range
    [[l, r]], when the subtree represents [f]: the sentinel when there is
    nothing to report, the minimum of the node when it lies inside the query
    range, and otherwise the minimum over the intersection capped by the
    sentinel (a partially covered node always meets a node outside the
    range on the way down). *)
Definition qans (f : Z -> Z) (s e l r : Z) : Z :=
  if (r <? s) || (e <? l) || (r <? l) then INF
  else if (l <=? s) && (e <=? r) then minrange f s e
  else Z.min INF (minrange f (Z.max s l) (Z.min e r)).

(** [desc i j]: slot [j] belongs to the subtree rooted at slot [i] in the
    implicit numbering (children of [j] are [2j] and [2j+1]). *)
Inductive desc (i : Z) : Z -> Prop :=
| desc_refl : desc i i
| desc_left j : desc i j -> desc i (2 * j)
| desc_right j : desc i j -> desc i (2 * j + 1).

(** [Rep m T L f i s e acc]: in the arrays [T] (stored values) and [L]
    (pending deltas) of [m] slots, the subtree rooted at slot [i] covers
    [[s, e]] and represents the logical array [f], given that the deltas
    pending on the strict ancestors of [i] sum to [acc].  Every node's
    settled value (stored value plus all deltas pending on it and above it)
    is the minimum of [f] over the node's range. *)
Inductive Rep (m : Z) (T L f : Z -> Z) : Z -> Z -> Z -> Z -> Prop :=
| Rep_leaf i s acc :
    1 <= i < m ->
    T i + L i + acc = f s ->
    Rep m T L f i s s acc
| Rep_node i s e acc :
    1 <= i < m -> 0 <= s < e ->
    T i + L i + acc = minrange f s e ->
    Rep m T L f (2 * i) s ((s + e) / 2) (acc + L i) ->
    Rep m T L f (2 * i + 1) ((s + e) / 2 + 1) e (acc + L i) ->
    Rep m T L f i s e acc.

(** The structure invariant: [t] represents the logical array [a]. *)
Definition Inv (t : SegmentTree) (a : list Z) : Prop :=
  1 <= n t /\ Vec.size a = n t /\ Vec.size (ar t) = n t /\
  sized t (4 * n t) /\
  Rep (4 * n t) (Tv t) (Lv t) (arrf a) 1 0 (n t - 1) 0.

(** ** The naive O(N) simulation *)

Module Naive.

(** [A[k] + delta if k in [lo, hi] else A[k]]. *)
Definition rangeUpdate (A : list Z) (lo hi delta : Z) : list Z :=
  imap (fun k x => if (lo <=? Z.of_nat k) && (Z.of_nat k <=? hi)
                   then x + delta else x) A.

(** Minimum of the non-empty list [x :: xs], by a left-to-right scan. *)
Fixpoint list_min (x : Z) (xs : list Z) : Z :=
  match xs with
  | [] => x
  | y :: ys => Z.min x (list_min y ys)
  end.

(** [min(A)]; not meaningful for the empty array. *)
Definition min_all (A : list Z) : option Z :=
  match A with
  | [] => None
  | x :: xs => Some (list_min x xs)
  end.

(** Minimum over the indices [ql..qh] by a linear scan. *)
Definition rangeMin (A : list Z) (ql qh : Z) : option Z :=
  min_all (take (Z.to_nat (qh - ql + 1)) (drop (Z.to_nat ql) A)).

(** What [pointUpdate pos val] does to the logical array, given the tracked
    base array [base]: it adds [val - base[pos]] at [pos]. *)
Definition pointShift (A base : list Z) (pos val : Z) : list Z :=
  <[Z.to_nat pos := Vec.get A pos + (val - Vec.get base pos)]> A.

End Naive.

(** ** Reachable states *)

(** [reach t a]: [t] is reachable from a construction by in-range
    operations, and [a] is the logical array of the same history. *)
Inductive reach : SegmentTree -> list Z -> Prop :=
| reach_build A t :
    A <> [] -> build A = Some t -> reach t A
| reach_updateRange t a l r v t' :
    reach t a -> 0 <= l <= r -> r <= n t - 1 ->
    updateRange l r v t = Some t' ->
    reach t' (Naive.rangeUpdate a l r v)
| reach_pointUpdate t a i v t' :
    reach t a -> 0 <= i <= n t - 1 ->
    pointUpdate i v t = Some t' ->
    reach t' (Naive.pointShift a (ar t) i v)
| reach_rangeMin t a l r x t' :
    reach t a -> 0 <= l <= r -> r <= n t - 1 ->
    rangeMin l r t = Some (x, t') ->
    reach t' a.

Definition reachable (t : SegmentTree) : Prop := exists a, reach t a.

(** Operations of the public interface, and running a sequence of them
    while collecting the answers of the queries. *)
Inductive op : Type :=
| OpUpdateRange (l r v : Z)
| OpPointUpdate (pos v : Z)
| OpRangeMin (l r : Z).

Fixpoint run (ops : list op) (t : SegmentTree) : option (list Z * SegmentTree) :=
  match ops with
  | [] => Some ([], t)
  | OpUpdateRange l r v :: ops => t ← updateRange l r v t; run ops t
  | OpPointUpdate p v :: ops => t ← pointUpdate p v t; run ops t
  | OpRangeMin l r :: ops =>
      '(x, t) ← rangeMin l r t;
      '(xs, t) ← run ops t;
      Some (x :: xs, t)
  end.

(** The slots of a subtree of [len] leaves rooted at [i] fit in [m] slots:
    a perfect tree of height [h] hung at [i] ends before slot [(i+1) 2^h]. *)
Definition fits (i len m : Z) : Prop :=
  exists h : nat, len <= 2 ^ Z.of_nat h /\ (i + 1) * 2 ^ Z.of_nat h <= m.

(** [covers n i lo hi]: slot [i] is a node of the tree over [[0, n-1]] and
    its range is [[lo, hi]], following the recursion of the member
    functions from the root call [(1, 0, n-1)]. *)
Inductive covers (n : Z) : Z -> Z -> Z -> Prop :=
| covers_root : covers n 1 0 (n - 1)
| covers_left i lo hi :
    covers n i lo hi -> lo < hi -> covers n (2 * i) lo (midpoint lo hi)
| covers_right i lo hi :
    covers n i lo hi -> lo < hi -> covers n (2 * i + 1) (midpoint lo hi + 1) hi.

(** ** The logical model of a history *)

Module Model.


End Model.

(** ** The public operations over any implementation of [rangeUpdate] *)

Section WithRangeUpdate.

Variable ru : nat -> Z -> Z -> Z -> Z -> Z -> Z -> SegmentTree -> option SegmentTree.

Definition updateRange_with (l r val : Z) (t : SegmentTree) : option SegmentTree :=
  ru (depth_fuel t) 1 0 (n t - 1) l r val t.

Definition pointUpdate_with (pos val : Z) (t : SegmentTree) : option SegmentTree :=
  a ← Vec.rd (ar t) pos;
  t ← ru (depth_fuel t) 1 0 (n t - 1) pos pos (val - a) t;
  set_ar t pos val.

Fixpoint run_with (ops : list op) (t : SegmentTree) : option (list Z * SegmentTree) :=
  match ops with
  | [] => Some ([], t)
  | OpUpdateRange l r v :: ops => t ← updateRange_with l r v t; run_with ops t
  | OpPointUpdate p v :: ops => t ← pointUpdate_with p v t; run_with ops t
  | OpRangeMin l r :: ops =>
      '(x, t) ← rangeMin l r t;
      '(xs, t) ← run_with ops t;
      Some (x :: xs, t)
  end.

End WithRangeUpdate.

(** ** Variants of [rangeUpdate] without the entry flush on no overlap *)

(** The variant considered in the design notes: the no-overlap test comes
    first and returns without flushing; everything else is as in the
    source. *)
Module SkipFlush.

Fixpoint rangeUpdate (fuel : nat) (node start end_ l r val : Z)
    (t : SegmentTree) : option SegmentTree :=
  match fuel with
  | O => None
  | S fuel =>
    if (start >? end_) || (start >? r) || (end_ <? l) then Some t
    else
      t ← push node start end_ t;
      if (start >=? l) && (end_ <=? r) then
        a ← Vec.rd (lazy t) node;
        t ← set_lazy t node (a + val);
        push node start end_ t
      else
        let mid := midpoint start end_ in
        t ← rangeUpdate fuel (2 * node) start mid l r val t;
        t ← rangeUpdate fuel (2 * node + 1) (mid + 1) end_ l r val t;
        a ← Vec.rd (segment_tree t) (2 * node);
        b ← Vec.rd (segment_tree t) (2 * node + 1);
        set_tree t node (Z.min a b)
  end.

Definition updateRange (l r val : Z) (t : SegmentTree) : option SegmentTree :=
  rangeUpdate (depth_fuel t) 1 0 (n t - 1) l r val t.

End SkipFlush.

(** The same variant, except that the parent recomputes its value from the
    children's settled values (stored value plus pending delta), since a
    child that was skipped may still carry a pending delta. *)
Module SkipFlushSettled.

Fixpoint rangeUpdate (fuel : nat) (node start end_ l r val : Z)
    (t : SegmentTree) : option SegmentTree :=
  match fuel with
  | O => None
  | S fuel =>
    if (start >? end_) || (start >? r) || (end_ <? l) then Some t
    else
      t ← push node start end_ t;
      if (start >=? l) && (end_ <=? r) then
        a ← Vec.rd (lazy t) node;
        t ← set_lazy t node (a + val);
        push node start end_ t
      else
        let mid := midpoint start end_ in
        t ← rangeUpdate fuel (2 * node) start mid l r val t;
        t ← rangeUpdate fuel (2 * node + 1) (mid + 1) end_ l r val t;
        a ← Vec.rd (segment_tree t) (2 * node);
        la ← Vec.rd (lazy t) (2 * node);
        b ← Vec.rd (segment_tree t) (2 * node + 1);
        lb ← Vec.rd (lazy t) (2 * node + 1);
        set_tree t node (Z.min (a + la) (b + lb))
  end.

Definition updateRange := updateRange_with rangeUpdate.
Definition pointUpdate := pointUpdate_with rangeUpdate.
Definition run := run_with rangeUpdate.

End SkipFlushSettled.

(** ** Statements compared with the naive simulation *)




(** ** Sample states *)

(** The array of examples/basic_usage.cpp and the tree built from it. *)
Definition sample_array : list Z := [1; 3; 2; 4; 5; 6; 7; 8].

Definition sample_tree : SegmentTree :=
  Eval vm_compute in
    match build sample_array with
    | Some t => t
    | None => MkSegmentTree [] [] [] 0
    end.

(** A two-element tree, a one-element tree after a range update, and a
    two-element tree after an update of its whole range (which leaves
    pending deltas on both leaves). *)
Definition no_tree : SegmentTree := MkSegmentTree [] [] [] 0.

Definition two_zeros_tree : SegmentTree :=
  Eval vm_compute in default no_tree (build [0; 0]).

Definition stale_tree : SegmentTree :=
  Eval vm_compute in default no_tree (build [5] ≫= updateRange 0 0 3).

Definition pending_tree : SegmentTree :=
  Eval vm_compute in default no_tree (build [0; 0] ≫= updateRange 0 1 5).


(** ** Histories without range updates *)

(** States reachable from a construction by in-range [pointUpdate] and
    [rangeMin] calls only. *)
Inductive reach_points : SegmentTree -> Prop :=
| rp_build A t :
    A <> [] -> build A = Some t -> reach_points t
| rp_pointUpdate t i v t' :
    reach_points t -> 0 <= i <= n t - 1 ->
    pointUpdate i v t = Some t' -> reach_points t'
| rp_rangeMin t l r x t' :
    reach_points t -> 0 <= l <= r -> r <= n t - 1 ->
    rangeMin l r t = Some (x, t') -> reach_points t'.

(** The answer of a query over [[l, r]] on a tree of [k] elements whose
    minimum over the range is [m]: the sentinel caps it unless the range
    is the whole array. *)
Definition capped (k l r m : Z) : Z :=
  if (l =? 0) && (r =? k - 1) then m else Z.min INF m.

(** ** Utility functions of utilities/common.hpp *)

(** [std::string] is modelled by [list ascii].  Plain [char] is taken to be
    signed, as on the usual x86-64 targets; the results below only involve
    characters below 128, where signedness makes no difference.  Reading
    [s[i]] outside the string is [None]. *)
Module Common.

Definition str : Type := list ascii.

Definition at_ (s : str) (i : Z) : option ascii :=
  if 0 <=? i then s !! Z.to_nat i else None.

(** The value of a [char] in arithmetic, and the conversion [char(z)]. *)
Definition code (c : ascii) : Z :=
  let u := Z.of_N (N_of_ascii c) in if u <? 128 then u else u - 256.

Definition to_char (z : Z) : ascii := ascii_of_N (Z.to_N (z mod 256)).

(** The loop [rep(i, 0, n/2) if (s[i] != s[n-1-i]) return false;] with [k]
    iterations left, followed by [return true]. *)
Fixpoint isPalindrome_from (s : str) (n i : Z) (k : nat) : option bool :=
  match k with
  | O => Some true
  | S k =>
      a ← at_ s i;
      b ← at_ s (n - 1 - i);
      if Ascii.eqb a b then isPalindrome_from s n (i + 1) k else Some false
  end.

Definition isPalindrome (s : str) : option bool :=
  let n := Z.of_nat (length s) in
  isPalindrome_from s n 0 (Z.to_nat (Z.quot n 2)).

(** The loop [while (n > 0) { binary = char('0' + n % 2) + binary; n /= 2; }]. *)
Fixpoint toBinary_loop (fuel : nat) (n : Z) (binary : str) : option str :=
  match fuel with
  | O => None
  | S fuel =>
      if n >? 0
      then toBinary_loop fuel (Z.quot n 2)
             (to_char (code "0" + Z.rem n 2) :: binary)
      else Some binary
  end.

(** The loop runs once per binary digit of [n], plus the final test. *)
Definition toBinary (n : Z) : option str :=
  binary ← toBinary_loop (S (S (Z.to_nat (Z.log2 n)))) n [];
  Some (match binary with [] => ["0"%char] | _ => binary end).

(** [for (char c : binary) num = num * 2 + (c - '0');] *)
Definition fromBinary_from (num : Z) (binary : str) : Z :=
  fold_left (fun num c => num * 2 + (code c - code "0")) binary num.

Definition fromBinary (binary : str) : Z := fromBinary_from 0 binary.

(** Strings of binary digits, and those without a superfluous leading
    zero. *)
Definition is_bit (c : ascii) : Prop := c = "0"%char \/ c = "1"%char.

Definition canonical (s : str) : Prop :=
  s = ["0"%char] \/ exists s', s = "1"%char :: s' /\ Forall is_bit s'.

End Common.

(** ** The member functions on 64-bit integers *)

(** [long long] arithmetic: a sum that leaves [[-2^63, 2^63 - 1]] wraps
    around modulo 2^64. *)
Module Machine64.

Definition in64 (z : Z) : Prop :=
  -9223372036854775808 <= z <= 9223372036854775807.

Definition in64b (z : Z) : bool :=
  (-9223372036854775808 <=? z) && (z <=? 9223372036854775807).

Definition wrap (z : Z) : Z :=
  (z + 9223372036854775808) mod 18446744073709551616 - 9223372036854775808.

Definition add64 (a b : Z) : Z := wrap (a + b).
Definition sub64 (a b : Z) : Z := wrap (a - b).

Definition push (node start end_ : Z) (t : SegmentTree) : option SegmentTree :=
  ln ← Vec.rd (lazy t) node;
  if ln =? 0 then Some t
  else
    tn ← Vec.rd (segment_tree t) node;
    t ← set_tree t node (add64 tn ln);
    t ← (if start =? end_ then Some t
         else
           a ← Vec.rd (lazy t) (2 * node);
           t ← set_lazy t (2 * node) (add64 a ln);
           b ← Vec.rd (lazy t) (2 * node + 1);
           set_lazy t (2 * node + 1) (add64 b ln));
    set_lazy t node 0.

Fixpoint rangeUpdate (fuel : nat) (node start end_ l r val : Z)
    (t : SegmentTree) : option SegmentTree :=
  match fuel with
  | O => None
  | S fuel =>
    t ← push node start end_ t;
    if (start >? end_) || (start >? r) || (end_ <? l) then Some t
    else if (start >=? l) && (end_ <=? r) then
      a ← Vec.rd (lazy t) node;
      t ← set_lazy t node (add64 a val);
      push node start end_ t
    else
      let mid := midpoint start end_ in
      t ← rangeUpdate fuel (2 * node) start mid l r val t;
      t ← rangeUpdate fuel (2 * node + 1) (mid + 1) end_ l r val t;
      a ← Vec.rd (segment_tree t) (2 * node);
      b ← Vec.rd (segment_tree t) (2 * node + 1);
      set_tree t node (Z.min a b)
  end.

Fixpoint query (fuel : nat) (start_index end_index segment_index
    query_start query_end : Z) (t : SegmentTree) : option (Z * SegmentTree) :=
  match fuel with
  | O => None
  | S fuel =>
    t ← push segment_index start_index end_index t;
    if (query_end <? start_index) || (query_start >? end_index)
    then Some (INF, t)
    else if (query_start <=? start_index) && (end_index <=? query_end) then
      a ← Vec.rd (segment_tree t) segment_index;
      Some (a, t)
    else
      let mid := midpoint start_index end_index in
      '(left_, t) ← query fuel start_index mid (2 * segment_index)
                         query_start query_end t;
      '(right_, t) ← query fuel (mid + 1) end_index (2 * segment_index + 1)
                          query_start query_end t;
      Some (Z.min left_ right_, t)
  end.

Definition rangeMin (l r : Z) (t : SegmentTree) : option (Z * SegmentTree) :=
  query (depth_fuel t) 0 (n t - 1) 1 l r t.

Definition updateRange (l r val : Z) (t : SegmentTree) : option SegmentTree :=
  rangeUpdate (depth_fuel t) 1 0 (n t - 1) l r val t.

Definition pointUpdate (pos val : Z) (t : SegmentTree) : option SegmentTree :=
  a ← Vec.rd (ar t) pos;
  t ← rangeUpdate (depth_fuel t) 1 0 (n t - 1) pos pos (sub64 val a) t;
  set_ar t pos val.

(** The constructor and [buildTree] add nothing: on 64-bit integers they
    are the functions [build] and [buildTree] above. *)

(** States reachable on the machine from a construction by in-range
    operations on [long long] values, whether or not a sum overflows. *)
Inductive reachable : SegmentTree -> Prop :=
| m_build A t :
    A <> [] -> Forall in64 A -> build A = Some t -> reachable t
| m_updateRange t l r v t' :
    reachable t -> 0 <= l <= r -> r <= n t - 1 -> in64 v ->
    updateRange l r v t = Some t' -> reachable t'
| m_pointUpdate t i v t' :
    reachable t -> 0 <= i <= n t - 1 -> in64 v ->
    pointUpdate i v t = Some t' -> reachable t'
| m_rangeMin t l r x t' :
    reachable t -> 0 <= l <= r -> r <= n t - 1 ->
    rangeMin l r t = Some (x, t') -> reachable t'.

(** [reach t a]: [t] is reachable on the machine by a history whose
    logical array is [a], and after every step of the history every
    element of the logical array is within [long long]. *)
Inductive reach : SegmentTree -> list Z -> Prop :=
| reach_build A t :
    A <> [] -> Forall in64 A -> build A = Some t -> reach t A
| reach_updateRange t a l r v t' :
    reach t a -> 0 <= l <= r -> r <= n t - 1 -> in64 v ->
    Forall in64 (Naive.rangeUpdate a l r v) ->
    updateRange l r v t = Some t' ->
    reach t' (Naive.rangeUpdate a l r v)
| reach_pointUpdate t a i v t' :
    reach t a -> 0 <= i <= n t - 1 -> in64 v ->
    Forall in64 (Naive.pointShift a (ar t) i v) ->
    pointUpdate i v t = Some t' ->
    reach t' (Naive.pointShift a (ar t) i v)
| reach_rangeMin t a l r x t' :
    reach t a -> 0 <= l <= r -> r <= n t - 1 ->
    rangeMin l r t = Some (x, t') ->
    reach t' a.

(** [Rep m T L f i s e D]: the subtree rooted at slot [i] covers [[s, e]]
    and represents the logical array [f], given that the deltas pending on
    the strict ancestors of [i] amount to [D].  The node's own settled
    value, stored value plus own pending delta on 64 bits, is the minimum
    of the values [f k - D] its elements had when the node was last
    visited; these are within [long long].  A pending delta is known
    modulo 2^64 only: [d] is the amount it stands for. *)
Inductive Rep (m : Z) (T L f : Z -> Z) : Z -> Z -> Z -> Z -> Prop :=
| Rep_leaf i s D :
    1 <= i < m ->
    in64 (T i) -> in64 (f s - D) ->
    wrap (T i + L i) = f s - D ->
    Rep m T L f i s s D
| Rep_node i s e D d :
    1 <= i < m -> 0 <= s < e ->
    in64 (T i) -> (forall k, s <= k <= e -> in64 (f k - D)) ->
    wrap (T i + L i) = minrange f s e - D ->
    wrap d = wrap (L i) ->
    Rep m T L f (2 * i) s ((s + e) / 2) (D + d) ->
    Rep m T L f (2 * i + 1) ((s + e) / 2 + 1) e (D + d) ->
    Rep m T L f i s e D.

Definition Inv (t : SegmentTree) (a : list Z) : Prop :=
  1 <= n t /\ Vec.size a = n t /\ Vec.size (ar t) = n t /\
  sized t (4 * n t) /\
  Rep (4 * n t) (Tv t) (Lv t) (arrf a) 1 0 (n t - 1) 0.


(** The stored value of an internal node without pending delta is the
    minimum of its children's settled values. *)
Definition node_invariant (t : SegmentTree) (i : Z) : Prop :=
  Lv t i = 0 ->
  Tv t i = Z.min (add64 (Tv t (2 * i)) (Lv t (2 * i)))
                 (add64 (Tv t (2 * i + 1)) (Lv t (2 * i + 1))).

(** The array of the largest [long long] and 0, after adding 1 to both
    elements and querying the first. *)
Definition overflow_tree : SegmentTree :=
  Eval vm_compute in
    default no_tree
      (t ← build [9223372036854775807; 0];
       t ← updateRange 0 1 1 t;
       '(_, t) ← rangeMin 0 0 t;
       Some t).

(** [fromBinary] of utilities/common.hpp on 64-bit integers. *)
Definition fromBinary_from (num : Z) (binary : Common.str) : Z :=
  fold_left (fun num c => wrap (num * 2 + (Common.code c - Common.code "0")))
            binary num.

Definition fromBinary (binary : Common.str) : Z := fromBinary_from 0 binary.

End Machine64.

(** * Proofs *)

(** ** Checked vectors *)

Lemma rd_get (v : list Z) (i : Z) :
  0 <= i < Vec.size v -> Vec.rd v i = Some (Vec.get v i).
Proof.
  intros Hi. unfold Vec.get, Vec.rd, Vec.size in *.
  destruct (Z.leb_spec 0 i); [|lia].
  destruct (lookup_lt_is_Some_2 v (Z.to_nat i)) as [x Hx]; [lia|].
  rewrite Hx. reflexivity.
Qed.

Lemma rd_Some_get (v : list Z) (i x : Z) :
  Vec.rd v i = Some x -> Vec.get v i = x /\ 0 <= i < Vec.size v.
Proof.
  unfold Vec.get, Vec.rd, Vec.size. destruct (Z.leb_spec 0 i); [|discriminate].
  intros Hx. rewrite Hx. split; [reflexivity|].
  apply lookup_lt_Some in Hx. lia.
Qed.

Lemma get_outside (v : list Z) (i : Z) :
  ~ (0 <= i < Vec.size v) -> Vec.get v i = 0.
Proof.
  intros Hi. unfold Vec.get, Vec.rd, Vec.size in *.
  destruct (Z.leb_spec 0 i); [|reflexivity].
  rewrite lookup_ge_None_2; [reflexivity|lia].
Qed.

Lemma get_insert (v : list Z) (i : nat) (x j : Z) :
  (i < length v)%nat ->
  Vec.get (<[i := x]> v) j = if j =? Z.of_nat i then x else Vec.get v j.
Proof.
  intros Hi. unfold Vec.get, Vec.rd.
  destruct (Z.eqb_spec j (Z.of_nat i)) as [->|Hne].
  - destruct (Z.leb_spec 0 (Z.of_nat i)); [|lia].
    rewrite Nat2Z.id, list_lookup_insert_eq by exact Hi. reflexivity.
  - destruct (Z.leb_spec 0 j); [|reflexivity].
    rewrite list_lookup_insert_ne by lia. reflexivity.
Qed.

Lemma wr_ok (v : list Z) (i x : Z) :
  0 <= i < Vec.size v ->
  exists v', Vec.wr v i x = Some v' /\ Vec.size v' = Vec.size v /\
             forall j, Vec.get v' j = if j =? i then x else Vec.get v j.
Proof.
  intros Hi. unfold Vec.wr, Vec.size in *.
  destruct (Z.leb_spec 0 i); [|lia].
  destruct (Z.ltb_spec i (Z.of_nat (length v))); [|lia]. simpl.
  eexists; split; [reflexivity|]. split.
  - rewrite length_insert. reflexivity.
  - intros j. rewrite get_insert by lia. rewrite Z2Nat.id by lia. reflexivity.
Qed.

(** ** Field updates *)

Lemma set_tree_ok (t : SegmentTree) (m i x : Z) :
  sized t m -> 0 <= i < m ->
  exists t', set_tree t i x = Some t' /\ sized t' m /\
    ar t' = ar t /\ n t' = n t /\
    (forall j, Tv t' j = if j =? i then x else Tv t j) /\
    (forall j, Lv t' j = Lv t j).
Proof.
  intros [HT HL] Hi. unfold set_tree.
  destruct (wr_ok (segment_tree t) i x) as (v' & -> & Hsz & Hget); [lia|].
  simpl. eexists; split; [reflexivity|].
  unfold sized, Tv, Lv; simpl. repeat split; auto; lia.
Qed.

Lemma set_lazy_ok (t : SegmentTree) (m i x : Z) :
  sized t m -> 0 <= i < m ->
  exists t', set_lazy t i x = Some t' /\ sized t' m /\
    ar t' = ar t /\ n t' = n t /\
    (forall j, Tv t' j = Tv t j) /\
    (forall j, Lv t' j = if j =? i then x else Lv t j).
Proof.
  intros [HT HL] Hi. unfold set_lazy.
  destruct (wr_ok (lazy t) i x) as (v' & -> & Hsz & Hget); [lia|].
  simpl. eexists; split; [reflexivity|].
  unfold sized, Tv, Lv; simpl. repeat split; auto; lia.
Qed.

Lemma rd_tree (t : SegmentTree) (m i : Z) :
  sized t m -> 0 <= i < m -> Vec.rd (segment_tree t) i = Some (Tv t i).
Proof. intros [HT _] Hi. apply rd_get. lia. Qed.

Lemma rd_lazy (t : SegmentTree) (m i : Z) :
  sized t m -> 0 <= i < m -> Vec.rd (lazy t) i = Some (Lv t i).
Proof. intros [_ HL] Hi. apply rd_get. lia. Qed.

(** ** [push] *)

(** The effect of [push] in closed form.  When the pending delta is zero
    the function returns the state unchanged, which the formulas cover. *)
Lemma push_spec (t : SegmentTree) (m node s e : Z) :
  sized t m -> 1 <= node < m -> (s <> e -> 2 * node + 1 < m) ->
  exists t', push node s e t = Some t' /\ sized t' m /\
    ar t' = ar t /\ n t' = n t /\
    (forall j, Tv t' j = if j =? node then Tv t node + Lv t node else Tv t j) /\
    (forall j, Lv t' j =
       if j =? node then 0
       else if negb (s =? e) && ((j =? 2 * node) || (j =? 2 * node + 1))
            then Lv t j + Lv t node else Lv t j).
Proof.
  intros Hsz Hn Hc. unfold push.
  rewrite (rd_lazy t m) by (auto; lia). simpl.
  destruct (Z.eqb_spec (Lv t node) 0) as [H0|H0].
  - exists t. rewrite H0. repeat split; try apply Hsz.
    + intros j. destruct (j =? node) eqn:E; [apply Z.eqb_eq in E; subst|]; lia.
    + intros j. destruct (Z.eqb_spec j node) as [->|]; [lia|].
      destruct (negb (s =? e) && ((j =? 2 * node) || (j =? 2 * node + 1))); lia.
  - rewrite (rd_tree t m) by (auto; lia). simpl.
    destruct (set_tree_ok t m node (Tv t node + Lv t node)) as
      (t1 & -> & Hsz1 & Har1 & Hn1 & HT1 & HL1); [auto|lia|]. simpl.
    destruct (Z.eqb_spec s e) as [Hse|Hse]; simpl.
    + destruct (set_lazy_ok t1 m node 0) as
        (t2 & -> & Hsz2 & Har2 & Hn2 & HT2 & HL2); [auto|lia|].
      eexists; split; [reflexivity|]. repeat split; try apply Hsz2; try congruence.
      * intros j. rewrite HT2, HT1. reflexivity.
      * intros j. rewrite HL2, HL1. reflexivity.
    + specialize (Hc Hse).
      rewrite (rd_lazy t1 m) by (auto; lia). simpl.
      destruct (set_lazy_ok t1 m (2 * node) (Lv t1 (2 * node) + Lv t node)) as
        (t2 & -> & Hsz2 & Har2 & Hn2 & HT2 & HL2); [auto|lia|]. simpl.
      rewrite (rd_lazy t2 m) by (auto; lia). simpl.
      destruct (set_lazy_ok t2 m (2 * node + 1) (Lv t2 (2 * node + 1) + Lv t node)) as
        (t3 & -> & Hsz3 & Har3 & Hn3 & HT3 & HL3); [auto|lia|]. simpl.
      destruct (set_lazy_ok t3 m node 0) as
        (t4 & -> & Hsz4 & Har4 & Hn4 & HT4 & HL4); [auto|lia|].
      eexists; split; [reflexivity|]. repeat split; try apply Hsz4; try congruence.
      * intros j. rewrite HT4, HT3, HT2, HT1. reflexivity.
      * intros j. rewrite HL4, HL3, !HL2, !HL1.
        destruct (Z.eqb_spec j node); [reflexivity|].
        destruct (Z.eqb_spec j (2 * node + 1)); destruct (Z.eqb_spec j (2 * node));
          destruct (Z.eqb_spec (2 * node + 1) (2 * node)); simpl; try lia; subst; reflexivity.
Qed.

(** ** Range minima *)

Lemma minrange_single (f : Z -> Z) (s : Z) : minrange f s s = f s.
Proof. unfold minrange. rewrite Z.sub_diag. reflexivity. Qed.

Lemma minfrom_app (f : Z -> Z) (a b : nat) (s : Z) :
  minfrom f s (a + S b) =
  Z.min (minfrom f s a) (minfrom f (s + Z.of_nat a + 1) b).
Proof.
  revert s. induction a as [|a IH]; intros s.
  - cbn [Nat.add minfrom]. replace (s + Z.of_nat 0 + 1) with (s + 1) by lia.
    reflexivity.
  - change (S a + S b)%nat with (S (a + S b)). cbn [minfrom].
    rewrite IH. rewrite Z.min_assoc.
    replace (s + 1 + Z.of_nat a + 1) with (s + Z.of_nat (S a) + 1) by lia.
    reflexivity.
Qed.

Lemma minrange_split (f : Z -> Z) (s mid e : Z) :
  s <= mid < e ->
  minrange f s e = Z.min (minrange f s mid) (minrange f (mid + 1) e).
Proof.
  intros H. unfold minrange.
  replace (Z.to_nat (e - s)) with
    (Z.to_nat (mid - s) + S (Z.to_nat (e - (mid + 1))))%nat by lia.
  rewrite minfrom_app. do 2 f_equal. lia.
Qed.

Lemma minfrom_ext (f g : Z -> Z) (k : nat) (s : Z) :
  (forall x, s <= x <= s + Z.of_nat k -> f x = g x) ->
  minfrom f s k = minfrom g s k.
Proof.
  revert s. induction k as [|k IH]; intros s H; cbn [minfrom].
  - apply H. lia.
  - rewrite (H s) by lia. f_equal. apply IH. intros x Hx. apply H. lia.
Qed.

Lemma minrange_ext (f g : Z -> Z) (s e : Z) :
  s <= e -> (forall x, s <= x <= e -> f x = g x) ->
  minrange f s e = minrange g s e.
Proof.
  intros Hse H. apply minfrom_ext. intros x Hx. apply H. lia.
Qed.

Lemma minfrom_add (f : Z -> Z) (v : Z) (k : nat) (s : Z) :
  minfrom (fun x => f x + v) s k = minfrom f s k + v.
Proof.
  revert s. induction k as [|k IH]; intros s; cbn [minfrom]; [reflexivity|].
  rewrite IH. apply Z.add_min_distr_r.
Qed.

Lemma minfrom_lower (f : Z -> Z) (k : nat) (s x : Z) :
  s <= x <= s + Z.of_nat k -> minfrom f s k <= f x.
Proof.
  revert s. induction k as [|k IH]; intros s Hx; cbn [minfrom].
  - replace x with s by lia. lia.
  - destruct (Z.eq_dec x s) as [->|Hne]; [lia|].
    specialize (IH (s + 1)). lia.
Qed.

Lemma minfrom_attained (f : Z -> Z) (k : nat) (s : Z) :
  exists x, s <= x <= s + Z.of_nat k /\ minfrom f s k = f x.
Proof.
  revert s. induction k as [|k IH]; intros s; cbn [minfrom].
  - exists s. split; [lia|reflexivity].
  - destruct (IH (s + 1)) as (x & Hx & Hm).
    destruct (Z.min_spec (f s) (minfrom f (s + 1) k)) as [[_ ->]|[_ ->]].
    + exists s. split; [lia|reflexivity].
    + exists x. split; [lia|exact Hm].
Qed.

(** ** The implicit numbering *)

Lemma desc_inv (i k : Z) :
  desc i k -> k = i \/ exists j, desc i j /\ (k = 2 * j \/ k = 2 * j + 1).
Proof. intros [|j H|j H]; [left|right; exists j|right; exists j]; auto. Qed.

Lemma desc_trans (a b c : Z) : desc a b -> desc b c -> desc a c.
Proof.
  intros Hab Hbc. induction Hbc; [exact Hab| |]; constructor; assumption.
Qed.

Lemma desc_ge (a b : Z) : 1 <= a -> desc a b -> b = a \/ 2 * a <= b.
Proof. intros Ha H. induction H; lia. Qed.

Lemma desc_chain (a b j : Z) :
  desc a j -> desc b j -> desc a b \/ desc b a.
Proof.
  intros Ha. revert b. induction Ha as [|j Ha IH|j Ha IH]; intros b Hb.
  - right. exact Hb.
  - destruct (desc_inv _ _ Hb) as [E|(j' & Hj' & [E|E])].
    + subst b. left. constructor. exact Ha.
    + assert (j' = j) by lia. subst. apply IH. exact Hj'.
    + lia.
  - destruct (desc_inv _ _ Hb) as [E|(j' & Hj' & [E|E])].
    + subst b. left. constructor. exact Ha.
    + lia.
    + assert (j' = j) by lia. subst. apply IH. exact Hj'.
Qed.

Lemma siblings_disjoint (i j : Z) :
  1 <= i -> desc (2 * i) j -> desc (2 * i + 1) j -> False.
Proof.
  intros Hi Hl Hr.
  destruct (desc_chain _ _ _ Hl Hr) as [H|H]; apply desc_ge in H; lia.
Qed.

Lemma desc_child_ne (i c j : Z) :
  1 <= i -> c = 2 * i \/ c = 2 * i + 1 -> desc c j -> j <> i.
Proof. intros Hi Hc H. apply desc_ge in H; lia. Qed.

Lemma desc_child (i c j : Z) :
  c = 2 * i \/ c = 2 * i + 1 -> desc c j -> desc i j.
Proof.
  intros [->| ->] H; (eapply desc_trans; [|exact H]); constructor; constructor.
Qed.

(** ** The representation predicate *)

Lemma midpoint_div (s e : Z) : 0 <= s + e -> midpoint s e = (s + e) / 2.
Proof. intros H. unfold midpoint. apply Z.quot_div_nonneg; lia. Qed.

Lemma mid_bounds (s e : Z) : s < e -> s <= (s + e) / 2 < e.
Proof. intros H. split; [apply Z.div_le_lower_bound|apply Z.div_lt_upper_bound]; lia. Qed.

Lemma Rep_val m T L f i s e acc :
  Rep m T L f i s e acc -> T i + L i + acc = minrange f s e.
Proof. intros [? ? ? ? H|]; [rewrite minrange_single|]; assumption. Qed.

Lemma Rep_bounds m T L f i s e acc :
  Rep m T L f i s e acc -> 1 <= i < m /\ s <= e /\ (s <> e -> 0 <= s /\ 2 * i + 1 < m).
Proof.
  intros HR. destruct HR as [i s acc Hi Hv|i s e acc Hi Hse Hv Hl Hr]; [lia|].
  assert (1 <= 2 * i + 1 < m) by (inversion Hr; assumption). lia.
Qed.

Lemma Rep_frame m T L T' L' f i s e acc :
  Rep m T L f i s e acc ->
  (forall j, desc i j -> T' j = T j /\ L' j = L j) ->
  Rep m T' L' f i s e acc.
Proof.
  induction 1 as [i s acc Hi Hv|i s e acc Hi Hse Hv Hl IHl Hr IHr]; intros Hfr.
  - destruct (Hfr i (desc_refl i)) as [HT HL].
    apply Rep_leaf; [assumption|]. rewrite HT, HL. exact Hv.
  - destruct (Hfr i (desc_refl i)) as [HT HL].
    apply Rep_node; try assumption.
    + rewrite HT, HL. exact Hv.
    + rewrite HL. apply IHl. intros j Hj. apply Hfr.
      apply (desc_child i (2 * i)); [lia|exact Hj].
    + rewrite HL. apply IHr. intros j Hj. apply Hfr.
      apply (desc_child i (2 * i + 1)); [lia|exact Hj].
Qed.

Lemma Rep_ext m T L f g i s e acc :
  Rep m T L f i s e acc ->
  (forall k, s <= k <= e -> f k = g k) ->
  Rep m T L g i s e acc.
Proof.
  induction 1 as [i s acc Hi Hv|i s e acc Hi Hse Hv Hl IHl Hr IHr]; intros Hfg.
  - apply Rep_leaf; [assumption|]. rewrite <- Hfg by lia. exact Hv.
  - pose proof (mid_bounds s e ltac:(lia)).
    apply Rep_node; try assumption.
    + rewrite <- (minrange_ext f g) by (auto; lia). exact Hv.
    + apply IHl. intros k Hk. apply Hfg. lia.
    + apply IHr. intros k Hk. apply Hfg. lia.
Qed.

Lemma Rep_shift m T L f v i s e acc :
  Rep m T L f i s e acc ->
  Rep m T L (fun k => f k + v) i s e (acc + v).
Proof.
  induction 1 as [i s acc Hi Hv|i s e acc Hi Hse Hv Hl IHl Hr IHr].
  - apply Rep_leaf; [assumption|]. lia.
  - apply Rep_node; try assumption.
    + unfold minrange. rewrite minfrom_add. unfold minrange in Hv. lia.
    + replace (acc + v + L i) with (acc + L i + v) by lia. exact IHl.
    + replace (acc + v + L i) with (acc + L i + v) by lia. exact IHr.
Qed.

(** Moving a pending delta between a node's own slot and the amount
    accumulated above it does not change what the subtree represents. *)
Lemma Rep_relazy m T L T' L' f i s e acc acc' :
  Rep m T L f i s e acc ->
  (forall j, desc i j -> T' j = T j) ->
  (forall j, desc i j -> j <> i -> L' j = L j) ->
  L' i + acc' = L i + acc ->
  Rep m T' L' f i s e acc'.
Proof.
  intros HR HT HL Hacc.
  destruct HR as [i s acc Hi Hv|i s e acc Hi Hse Hv Hl Hr].
  - apply Rep_leaf; [assumption|]. rewrite HT by constructor. lia.
  - assert (Hsub : forall c j, c = 2 * i \/ c = 2 * i + 1 -> desc c j ->
                               T' j = T j /\ L' j = L j).
    { intros c j Hc Hj. split.
      - apply HT. apply (desc_child i c); assumption.
      - apply HL; [apply (desc_child i c); assumption|].
        apply (desc_child_ne i c); [lia|assumption|assumption]. }
    apply Rep_node; try assumption.
    + rewrite HT by constructor. lia.
    + replace (acc' + L' i) with (acc + L i) by lia.
      eapply Rep_frame; [exact Hl|]. intros j Hj. apply (Hsub (2 * i)); [lia|exact Hj].
    + replace (acc' + L' i) with (acc + L i) by lia.
      eapply Rep_frame; [exact Hr|]. intros j Hj.
      apply (Hsub (2 * i + 1)); [lia|exact Hj].
Qed.

Lemma Rep_children m T L f i s e acc :
  Rep m T L f i s e acc -> s <> e -> L i = 0 ->
  Rep m T L f (2 * i) s ((s + e) / 2) acc /\
  Rep m T L f (2 * i + 1) ((s + e) / 2 + 1) e acc.
Proof.
  intros HR Hse H0. destruct HR as [|i s e acc Hi Hlt Hv Hl Hr]; [lia|].
  replace (acc + L i) with acc in * by lia. split; assumption.
Qed.

(** Case analysis on the integer tests left in a goal. *)
Ltac zb :=
  repeat match goal with
         | |- context [?a =? ?b] => destruct (Z.eqb_spec a b)
         end; simpl; try lia.

(** [push] keeps the representation, clears the node's own pending delta
    and touches nothing outside the node's subtree. *)
Lemma push_Rep (t : SegmentTree) m f i s e acc :
  sized t m -> Rep m (Tv t) (Lv t) f i s e acc ->
  exists t', push i s e t = Some t' /\ sized t' m /\
    ar t' = ar t /\ n t' = n t /\
    Lv t' i = 0 /\
    Rep m (Tv t') (Lv t') f i s e acc /\
    (forall j, ~ desc i j -> Tv t' j = Tv t j /\ Lv t' j = Lv t j).
Proof.
  intros Hsz HR.
  destruct (Rep_bounds _ _ _ _ _ _ _ _ HR) as (Hi & Hse & Hc).
  destruct (push_spec t m i s e Hsz Hi) as (t' & Hp & Hsz' & Har & Hn & HT & HL).
  { intros H. apply Hc. exact H. }
  exists t'. repeat split; try apply Hsz'; try assumption.
  - rewrite HL. zb.
  - destruct HR as [i s acc Hi' Hv|i s e acc Hi' Hlt Hv Hl Hr].
    + apply Rep_leaf; [assumption|]. rewrite HT, HL. zb.
    + assert (Hd : forall c j, c = 2 * i \/ c = 2 * i + 1 -> desc c j ->
                Tv t' j = Tv t j /\ (j <> c -> Lv t' j = Lv t j)).
      { intros c j Hcc Hj. apply desc_ge in Hj; [|lia].
        rewrite HT, HL. split; [zb|intros; zb]. }
      apply Rep_node; try assumption.
      * rewrite HT, HL. zb.
      * eapply Rep_relazy; [exact Hl| | |].
        -- intros j Hj. apply (Hd (2 * i)); [lia|exact Hj].
        -- intros j Hj Hne. apply (Hd (2 * i)); [lia|exact Hj|exact Hne].
        -- rewrite !HL. zb.
      * eapply Rep_relazy; [exact Hr| | |].
        -- intros j Hj. apply (Hd (2 * i + 1)); [lia|exact Hj].
        -- intros j Hj Hne. apply (Hd (2 * i + 1)); [lia|exact Hj|exact Hne].
        -- rewrite !HL. zb.
  - rewrite HT. destruct (Z.eqb_spec j i) as [->|]; [|reflexivity].
    exfalso. apply H. constructor.
  - rewrite HL. destruct (Z.eqb_spec j i) as [->|].
    { exfalso. apply H. constructor. }
    destruct (Z.eqb_spec j (2 * i)) as [->|].
    { exfalso. apply H. constructor. constructor. }
    destruct (Z.eqb_spec j (2 * i + 1)) as [->|].
    { exfalso. apply H. constructor. constructor. }
    rewrite andb_false_r. reflexivity.
Qed.

(** ** Arithmetic of the three-way case split *)

Ltac b2p H :=
  rewrite ?Z.gtb_ltb, ?Z.geb_leb in H;
  rewrite ?orb_true_iff, ?orb_false_iff, ?andb_true_iff, ?andb_false_iff in H;
  rewrite ?Z.ltb_lt, ?Z.ltb_ge, ?Z.leb_le, ?Z.leb_gt in H.

Ltac zc :=
  repeat (match goal with
          | |- context [?a <? ?b] => destruct (Z.ltb_spec a b)
          | |- context [?a <=? ?b] => destruct (Z.leb_spec a b)
          end; cbn [orb andb]; try lia).

Ltac zminmax :=
  repeat match goal with
         | |- context [Z.max ?a ?b] =>
             first [rewrite (Z.max_l a b) by lia | rewrite (Z.max_r a b) by lia]
         | |- context [Z.min ?a ?b] =>
             first [rewrite (Z.min_l a b) by lia | rewrite (Z.min_r a b) by lia]
         end.

Lemma partial_lt (s e l r : Z) :
  s <= e ->
  (r <? s) || (l >? e) = false ->
  (l <=? s) && (e <=? r) = false ->
  s < e.
Proof. intros Hse Ho Hi. b2p Ho. b2p Hi. lia. Qed.

Lemma qans_out (f : Z -> Z) (s e l r : Z) :
  (r <? s) || (l >? e) = true -> qans f s e l r = INF.
Proof. intros Ho. b2p Ho. unfold qans. zc. Qed.

Lemma qans_in (f : Z -> Z) (s e l r : Z) :
  s <= e ->
  (r <? s) || (l >? e) = false ->
  (l <=? s) && (e <=? r) = true ->
  qans f s e l r = minrange f s e.
Proof. intros Hse Ho Hi. b2p Ho. b2p Hi. unfold qans. zc. Qed.

Lemma qans_split (f : Z -> Z) (s mid e l r : Z) :
  s <= mid < e ->
  (r <? s) || (l >? e) = false ->
  (l <=? s) && (e <=? r) = false ->
  Z.min (qans f s mid l r) (qans f (mid + 1) e l r) = qans f s e l r.
Proof.
  intros Hm Ho Hi. b2p Ho. b2p Hi. unfold qans.
  destruct (Z.ltb_spec r l); [rewrite !orb_true_r; reflexivity|].
  rewrite !orb_false_r.
  destruct (Z.le_gt_cases r mid) as [Hr|Hr]; [|destruct (Z.le_gt_cases l mid) as [Hl|Hl]].
  - destruct (Z.eq_dec r mid) as [->|]; zc; zminmax; try lia.
  - zc; zminmax;
      try (match goal with
           | |- context [minrange f ?a ?b] =>
               rewrite (minrange_split f a mid b) by lia
           end); lia.
  - destruct (Z.eq_dec l (mid + 1)) as [->|]; zc; zminmax; try lia.
Qed.

(** ** [query] *)

Lemma query_spec (fuel : nat) : forall (t : SegmentTree) m f i s e l r,
  sized t m -> Rep m (Tv t) (Lv t) f i s e 0 ->
  e - s < Z.of_nat fuel ->
  exists t', query fuel s e i l r t = Some (qans f s e l r, t') /\
    sized t' m /\ ar t' = ar t /\ n t' = n t /\
    Rep m (Tv t') (Lv t') f i s e 0 /\
    (forall j, ~ desc i j -> Tv t' j = Tv t j /\ Lv t' j = Lv t j).
Proof.
  induction fuel as [|fuel IH]; intros t m f i s e l r Hsz HR Hf.
  { apply Rep_bounds in HR. lia. }
  destruct (Rep_bounds _ _ _ _ _ _ _ _ HR) as (Hi & Hse & Hc).
  destruct (push_Rep t m f i s e 0 Hsz HR)
    as (t1 & Hp & Hsz1 & Har1 & Hn1 & HL1 & HR1 & Hfr1).
  cbn [query]. rewrite Hp. simpl.
  destruct ((r <? s) || (l >? e)) eqn:Ho.
  { exists t1. rewrite qans_out by exact Ho. repeat split; try apply Hsz1; auto;
      apply Hfr1; assumption. }
  destruct ((l <=? s) && (e <=? r)) eqn:Hin.
  { rewrite (rd_tree t1 m) by (auto; lia). simpl. exists t1.
    rewrite qans_in by assumption.
    pose proof (Rep_val _ _ _ _ _ _ _ _ HR1) as Hv.
    replace (Tv t1 i) with (minrange f s e) by lia.
    repeat split; try apply Hsz1; auto; apply Hfr1; assumption. }
  pose proof (partial_lt s e l r Hse Ho Hin) as Hlt.
  destruct (Hc ltac:(lia)) as [Hs0 Hc2].
  destruct (Rep_children _ _ _ _ _ _ _ _ HR1 ltac:(lia) HL1) as [HRl HRr].
  rewrite midpoint_div by lia.
  pose proof (mid_bounds s e Hlt) as Hm.
  set (mid := (s + e) / 2) in *.
  destruct (IH t1 m f (2 * i) s mid l r Hsz1 HRl ltac:(lia))
    as (t2 & Hq2 & Hsz2 & Har2 & Hn2 & HR2 & Hfr2).
  rewrite Hq2. simpl.
  assert (HRr2 : Rep m (Tv t2) (Lv t2) f (2 * i + 1) (mid + 1) e 0).
  { eapply Rep_frame; [exact HRr|]. intros j Hj. apply Hfr2.
    intros Hd. apply (siblings_disjoint i j); [lia|assumption|assumption]. }
  destruct (IH t2 m f (2 * i + 1) (mid + 1) e l r Hsz2 HRr2 ltac:(lia))
    as (t3 & Hq3 & Hsz3 & Har3 & Hn3 & HR3 & Hfr3).
  rewrite Hq3. simpl. exists t3.
  rewrite qans_split by assumption.
  assert (Hself : Tv t3 i = Tv t1 i /\ Lv t3 i = Lv t1 i).
  { destruct (Hfr3 i) as [-> ->];
      [intros Hd; apply (desc_child_ne i (2 * i + 1) i) in Hd; lia|].
    apply Hfr2. intros Hd. apply (desc_child_ne i (2 * i) i) in Hd; lia. }
  destruct Hself as [HT3 HL3].
  repeat split; try apply Hsz3; try congruence.
  - apply Rep_node; try lia.
    + rewrite HT3, HL3. exact (Rep_val _ _ _ _ _ _ _ _ HR1).
    + fold mid. replace (0 + Lv t3 i) with 0 by lia.
      eapply Rep_frame; [exact HR2|]. intros j Hj. apply Hfr3.
      intros Hd. apply (siblings_disjoint i j); [lia|assumption|assumption].
    + fold mid. replace (0 + Lv t3 i) with 0 by lia. exact HR3.
  - destruct (Hfr3 j) as [-> _];
      [intros Hd; apply H; apply (desc_child i (2 * i + 1)); [lia|exact Hd]|].
    destruct (Hfr2 j) as [-> _];
      [intros Hd; apply H; apply (desc_child i (2 * i)); [lia|exact Hd]|].
    apply Hfr1. exact H.
  - destruct (Hfr3 j) as [_ ->];
      [intros Hd; apply H; apply (desc_child i (2 * i + 1)); [lia|exact Hd]|].
    destruct (Hfr2 j) as [_ ->];
      [intros Hd; apply H; apply (desc_child i (2 * i)); [lia|exact Hd]|].
    apply Hfr1. exact H.
Qed.

(** ** [rangeUpdate] *)

Lemma upd_out (f : Z -> Z) (s e l r v k : Z) :
  s <= e -> (s >? e) || (s >? r) || (e <? l) = true ->
  s <= k <= e -> upd f l r v k = f k.
Proof. intros Hse Ho Hk. b2p Ho. unfold upd. zc. Qed.

Lemma upd_in (f : Z -> Z) (s e l r v k : Z) :
  (s >=? l) && (e <=? r) = true ->
  s <= k <= e -> upd f l r v k = f k + v.
Proof. intros Hi Hk. b2p Hi. unfold upd. zc. Qed.

Lemma partial_update_lt (s e l r : Z) :
  s <= e ->
  (s >? e) || (s >? r) || (e <? l) = false ->
  (s >=? l) && (e <=? r) = false ->
  s < e.
Proof. intros Hse Ho Hi. b2p Ho. b2p Hi. lia. Qed.

Lemma rangeUpdate_spec (fuel : nat) : forall (t : SegmentTree) m f i s e l r v,
  sized t m -> Rep m (Tv t) (Lv t) f i s e 0 ->
  e - s < Z.of_nat fuel ->
  exists t', rangeUpdate fuel i s e l r v t = Some t' /\
    sized t' m /\ ar t' = ar t /\ n t' = n t /\
    Lv t' i = 0 /\
    Rep m (Tv t') (Lv t') (upd f l r v) i s e 0 /\
    (forall j, ~ desc i j -> Tv t' j = Tv t j /\ Lv t' j = Lv t j).
Proof.
  induction fuel as [|fuel IH]; intros t m f i s e l r v Hsz HR Hf.
  { apply Rep_bounds in HR. lia. }
  destruct (Rep_bounds _ _ _ _ _ _ _ _ HR) as (Hi & Hse & Hc).
  destruct (push_Rep t m f i s e 0 Hsz HR)
    as (t1 & Hp & Hsz1 & Har1 & Hn1 & HL1 & HR1 & Hfr1).
  cbn [rangeUpdate]. rewrite Hp. simpl.
  destruct ((s >? e) || (s >? r) || (e <? l)) eqn:Ho.
  { exists t1. repeat split; try apply Hsz1; auto; try (apply Hfr1; assumption).
    eapply Rep_ext; [exact HR1|]. intros k Hk. symmetry.
    apply (upd_out f s e); assumption. }
  destruct ((s >=? l) && (e <=? r)) eqn:Hin.
  { rewrite (rd_lazy t1 m) by (auto; lia). simpl.
    destruct (set_lazy_ok t1 m i (Lv t1 i + v) Hsz1 ltac:(lia))
      as (t2 & -> & Hsz2 & Har2 & Hn2 & HT2 & HL2). simpl.
    assert (HR2 : Rep m (Tv t2) (Lv t2) (upd f l r v) i s e 0).
    { apply (Rep_ext m _ _ (fun k => f k + v)).
      - assert (Hneg : Rep m (Tv t2) (Lv t2) f i s e (- v)).
        { eapply Rep_relazy; [exact HR1| | |].
          + intros j _. apply HT2.
          + intros j _ Hne. rewrite HL2. zb.
          + rewrite HL2. zb. }
        apply (Rep_shift _ _ _ _ v) in Hneg.
        replace (- v + v) with 0 in Hneg by lia. exact Hneg.
      - intros k Hk. symmetry. apply (upd_in f s e); assumption. }
    destruct (push_Rep t2 m _ i s e 0 Hsz2 HR2)
      as (t3 & Hp3 & Hsz3 & Har3 & Hn3 & HL3 & HR3 & Hfr3).
    exists t3. repeat split; try apply Hsz3; try congruence.
    - destruct (Hfr3 j H) as [-> _]. rewrite HT2. apply Hfr1. exact H.
    - destruct (Hfr3 j H) as [_ ->]. rewrite HL2.
      destruct (Z.eqb_spec j i) as [->|]; [exfalso; apply H; constructor|].
      apply Hfr1. exact H. }
  pose proof (partial_update_lt s e l r Hse Ho Hin) as Hlt.
  destruct (Hc ltac:(lia)) as [Hs0 Hc2].
  destruct (Rep_children _ _ _ _ _ _ _ _ HR1 ltac:(lia) HL1) as [HRl HRr].
  rewrite midpoint_div by lia.
  pose proof (mid_bounds s e Hlt) as Hm.
  set (mid := (s + e) / 2) in *.
  set (g := upd f l r v) in *.
  destruct (IH t1 m f (2 * i) s mid l r v Hsz1 HRl ltac:(lia))
    as (t2 & Hq2 & Hsz2 & Har2 & Hn2 & HL2 & HR2 & Hfr2).
  rewrite Hq2. simpl.
  assert (HRr2 : Rep m (Tv t2) (Lv t2) f (2 * i + 1) (mid + 1) e 0).
  { eapply Rep_frame; [exact HRr|]. intros j Hj. apply Hfr2.
    intros Hd. apply (siblings_disjoint i j); [lia|assumption|assumption]. }
  destruct (IH t2 m f (2 * i + 1) (mid + 1) e l r v Hsz2 HRr2 ltac:(lia))
    as (t3 & Hq3 & Hsz3 & Har3 & Hn3 & HL3 & HR3 & Hfr3).
  rewrite Hq3. simpl.
  assert (HR2' : Rep m (Tv t3) (Lv t3) g (2 * i) s mid 0).
  { eapply Rep_frame; [exact HR2|]. intros j Hj. apply Hfr3.
    intros Hd. apply (siblings_disjoint i j); [lia|assumption|assumption]. }
  assert (Hself : Lv t3 i = 0).
  { destruct (Hfr3 i) as [_ ->];
      [intros Hd; apply (desc_child_ne i (2 * i + 1) i) in Hd; lia|].
    destruct (Hfr2 i) as [_ ->];
      [intros Hd; apply (desc_child_ne i (2 * i) i) in Hd; lia|]. exact HL1. }
  rewrite (rd_tree t3 m) by (auto; lia). simpl.
  rewrite (rd_tree t3 m) by (auto; lia). simpl.
  destruct (set_tree_ok t3 m i (Z.min (Tv t3 (2 * i)) (Tv t3 (2 * i + 1))) Hsz3
              ltac:(lia)) as (t4 & -> & Hsz4 & Har4 & Hn4 & HT4 & HL4).
  exists t4.
  assert (Hkeep : forall c j, c = 2 * i \/ c = 2 * i + 1 -> desc c j ->
                    Tv t4 j = Tv t3 j /\ Lv t4 j = Lv t3 j).
  { intros c j Hcc Hj. apply (desc_child_ne i c j) in Hj; [|lia|exact Hcc].
    rewrite HT4, HL4. zb. }
  split; [reflexivity|]. split; [exact Hsz4|].
  split; [congruence|]. split; [congruence|].
  split; [rewrite HL4; exact Hself|]. split; [|intros j H; split].
  - apply Rep_node; try lia.
    + rewrite HT4, HL4, Hself. rewrite Z.eqb_refl.
      pose proof (Rep_val _ _ _ _ _ _ _ _ HR2') as Hv2.
      pose proof (Rep_val _ _ _ _ _ _ _ _ HR3) as Hv3.
      assert (HL2' : Lv t3 (2 * i) = 0).
      { destruct (Hfr3 (2 * i)) as [_ ->]; [|exact HL2].
        intros Hd. apply desc_ge in Hd; lia. }
      rewrite (minrange_split g s mid e) by lia. fold g in Hv3. lia.
    + fold mid. rewrite HL4, Hself. replace (0 + 0) with 0 by lia.
      eapply Rep_frame; [exact HR2'|]. intros j Hj.
      apply (Hkeep (2 * i)); [lia|exact Hj].
    + fold mid. rewrite HL4, Hself. replace (0 + 0) with 0 by lia.
      eapply Rep_frame; [exact HR3|]. intros j Hj.
      apply (Hkeep (2 * i + 1)); [lia|exact Hj].
  - rewrite HT4. destruct (Z.eqb_spec j i) as [->|]; [exfalso; apply H; constructor|].
    destruct (Hfr3 j) as [-> _];
      [intros Hd; apply H; apply (desc_child i (2 * i + 1)); [lia|exact Hd]|].
    destruct (Hfr2 j) as [-> _];
      [intros Hd; apply H; apply (desc_child i (2 * i)); [lia|exact Hd]|].
    apply Hfr1. exact H.
  - rewrite HL4.
    destruct (Hfr3 j) as [_ ->];
      [intros Hd; apply H; apply (desc_child i (2 * i + 1)); [lia|exact Hd]|].
    destruct (Hfr2 j) as [_ ->];
      [intros Hd; apply H; apply (desc_child i (2 * i)); [lia|exact Hd]|].
    apply Hfr1. exact H.
Qed.

(** ** Construction *)

Lemma fits_root (k : Z) : 1 <= k -> fits 1 k (4 * k).
Proof.
  intros Hk. destruct (Z.eq_dec k 1) as [->|Hne].
  - exists 0%nat. simpl. lia.
  - exists (Z.to_nat (Z.log2_up k)).
    pose proof (Z.log2_up_spec k ltac:(lia)) as [Hlo Hhi].
    pose proof (Z.log2_up_pos k ltac:(lia)) as Hpos.
    rewrite Z2Nat.id by lia. split; [exact Hhi|].
    replace (Z.log2_up k) with (Z.succ (Z.pred (Z.log2_up k))) by lia.
    rewrite Z.pow_succ_r by lia. lia.
Qed.

Lemma fits_slot (i len m : Z) : 1 <= i -> fits i len m -> i < m.
Proof.
  intros Hi (h & _ & Hm).
  assert (0 < 2 ^ Z.of_nat h) by (apply Z.pow_pos_nonneg; lia). nia.
Qed.

Lemma fits_children (i s e m : Z) :
  1 <= i -> s < e -> fits i (e - s + 1) m ->
  fits (2 * i) ((s + e) / 2 - s + 1) m /\
  fits (2 * i + 1) (e - ((s + e) / 2 + 1) + 1) m.
Proof.
  intros Hi Hse (h & Hlen & Hm).
  destruct h as [|h]; [simpl in Hlen; lia|].
  rewrite Nat2Z.inj_succ, Z.pow_succ_r in Hlen, Hm by lia.
  assert (Hlo : 2 * ((s + e) / 2) <= s + e) by (apply Z.mul_div_le; lia).
  assert (Hhi : s + e < 2 * ((s + e) / 2) + 2).
  { pose proof (Z.mul_succ_div_gt (s + e) 2 ltac:(lia)). lia. }
  split; exists h; split; try lia; nia.
Qed.

Lemma buildTree_spec (fuel : nat) : forall (t : SegmentTree) m i s e,
  sized t m -> 1 <= i -> 0 <= s <= e -> e < Vec.size (ar t) ->
  fits i (e - s + 1) m ->
  (forall j, Lv t j = 0) ->
  e - s < Z.of_nat fuel ->
  exists t', buildTree fuel s e i t = Some t' /\
    sized t' m /\ ar t' = ar t /\ n t' = n t /\
    (forall j, Lv t' j = 0) /\
    Rep m (Tv t') (Lv t') (arrf (ar t)) i s e 0 /\
    (forall j, ~ desc i j -> Tv t' j = Tv t j).
Proof.
  induction fuel as [|fuel IH]; intros t m i s e Hsz Hi Hse He Hfits HL0 Hf; [lia|].
  pose proof (fits_slot _ _ _ Hi Hfits) as Him.
  cbn [buildTree]. destruct (Z.eqb_spec s e) as [<-|Hne].
  - rewrite rd_get by lia. simpl.
    destruct (set_tree_ok t m i (Vec.get (ar t) s) Hsz ltac:(lia))
      as (t1 & -> & Hsz1 & Har1 & Hn1 & HT1 & HL1).
    exists t1. split; [reflexivity|]. split; [exact Hsz1|].
    split; [exact Har1|]. split; [exact Hn1|].
    split; [intros j; rewrite HL1; apply HL0|]. split.
    + apply Rep_leaf; [lia|]. rewrite HT1, HL1, HL0. unfold arrf. zb.
    + intros j Hj. rewrite HT1. destruct (Z.eqb_spec j i) as [->|]; [|reflexivity].
      exfalso. apply Hj. constructor.
  - assert (Hlt : s < e) by lia.
    destruct (fits_children i s e m Hi Hlt Hfits) as [Hfl Hfr].
    rewrite midpoint_div by lia.
    pose proof (mid_bounds s e Hlt) as Hm.
    set (mid := (s + e) / 2) in *.
    destruct (IH t m (2 * i) s mid Hsz ltac:(lia) ltac:(lia) ltac:(lia) Hfl HL0
                ltac:(lia))
      as (t1 & Hb1 & Hsz1 & Har1 & Hn1 & HL1 & HR1 & Hfr1).
    rewrite Hb1. simpl.
    destruct (IH t1 m (2 * i + 1) (mid + 1) e Hsz1 ltac:(lia) ltac:(lia)
                ltac:(rewrite Har1; lia) Hfr HL1 ltac:(lia))
      as (t2 & Hb2 & Hsz2 & Har2 & Hn2 & HL2 & HR2 & Hfr2).
    rewrite Hb2. simpl. rewrite Har1 in HR2.
    assert (HR1' : Rep m (Tv t2) (Lv t2) (arrf (ar t)) (2 * i) s mid 0).
    { eapply Rep_frame; [exact HR1|]. intros j Hj. split.
      - apply Hfr2. intros Hd.
        apply (siblings_disjoint i j); [lia|assumption|assumption].
      - rewrite HL2, HL1. reflexivity. }
    destruct (Rep_bounds _ _ _ _ _ _ _ _ HR2) as (Hi2 & _ & _).
    rewrite (rd_tree t2 m) by (auto; lia). simpl.
    rewrite (rd_tree t2 m) by (auto; lia). simpl.
    destruct (set_tree_ok t2 m i (Z.min (Tv t2 (2 * i)) (Tv t2 (2 * i + 1))) Hsz2
                ltac:(lia)) as (t3 & -> & Hsz3 & Har3 & Hn3 & HT3 & HL3).
    exists t3.
    assert (Hkeep : forall c j, c = 2 * i \/ c = 2 * i + 1 -> desc c j ->
                      Tv t3 j = Tv t2 j /\ Lv t3 j = Lv t2 j).
    { intros c j Hcc Hj. apply (desc_child_ne i c j) in Hj; [|lia|exact Hcc].
      rewrite HT3, HL3. zb. }
    split; [reflexivity|]. split; [exact Hsz3|].
    split; [congruence|]. split; [congruence|].
    split; [intros j; rewrite HL3; apply HL2|]. split.
    + apply Rep_node; try lia.
      * rewrite HT3, HL3, HL2, Z.eqb_refl.
        pose proof (Rep_val _ _ _ _ _ _ _ _ HR1') as Hv1.
        pose proof (Rep_val _ _ _ _ _ _ _ _ HR2) as Hv2.
        rewrite !HL2 in Hv1, Hv2.
        rewrite (minrange_split (arrf (ar t)) s mid e) by lia. lia.
      * fold mid. rewrite HL3, HL2. replace (0 + 0) with 0 by lia.
        eapply Rep_frame; [exact HR1'|]. intros j Hj.
        apply (Hkeep (2 * i)); [lia|exact Hj].
      * fold mid. rewrite HL3, HL2. replace (0 + 0) with 0 by lia.
        eapply Rep_frame; [exact HR2|]. intros j Hj.
        apply (Hkeep (2 * i + 1)); [lia|exact Hj].
    + intros j Hj. rewrite HT3.
      destruct (Z.eqb_spec j i) as [->|]; [exfalso; apply Hj; constructor|].
      rewrite Hfr2;
        [|intros Hd; apply Hj; apply (desc_child i (2 * i + 1)); [lia|exact Hd]].
      apply Hfr1. intros Hd. apply Hj. apply (desc_child i (2 * i)); [lia|exact Hd].
Qed.

(** ** The public operations and the invariant *)

Lemma size_replicate (k x : Z) : 0 <= k -> Vec.size (replicate (Z.to_nat k) x) = k.
Proof. intros Hk. unfold Vec.size. rewrite length_replicate. lia. Qed.

Lemma get_replicate (k : nat) (x j : Z) : x = 0 -> Vec.get (replicate k x) j = 0.
Proof.
  intros ->. unfold Vec.get, Vec.rd. destruct (0 <=? j); [|reflexivity].
  destruct (replicate k 0 !! Z.to_nat j) as [y|] eqn:E; [|reflexivity].
  apply lookup_replicate in E. simpl. tauto.
Qed.

Lemma size_nonempty (A : list Z) : A <> [] -> 1 <= Vec.size A.
Proof. unfold Vec.size. destruct A; [congruence|simpl; lia]. Qed.

Lemma build_Inv (A : list Z) :
  A <> [] ->
  exists t, build A = Some t /\ Inv t A /\ ar t = A /\ forall j, Lv t j = 0.
Proof.
  intros HA. apply size_nonempty in HA. unfold build.
  set (k := Vec.size A) in *.
  set (t0 := MkSegmentTree A _ _ k).
  assert (Hsz : sized t0 (4 * k)).
  { split; apply size_replicate; lia. }
  destruct (buildTree_spec (S (Z.to_nat k)) t0 (4 * k) 1 0 (k - 1) Hsz)
    as (t & Hb & Hsz' & Har & Hn & HL & HR & _); try (simpl; fold k; lia).
  - replace (k - 1 - 0 + 1) with k by lia. apply fits_root. lia.
  - intros j. apply get_replicate. reflexivity.
  - exists t. split; [exact Hb|]. split; [|split; [exact Har|exact HL]].
    unfold Inv. rewrite Hn, Har. simpl. repeat split; try apply Hsz'; try (fold k; lia).
    exact HR.
Qed.

Lemma rangeMin_Inv (t : SegmentTree) (a : list Z) (l r : Z) :
  Inv t a ->
  exists t', rangeMin l r t = Some (qans (arrf a) 0 (n t - 1) l r, t') /\
    Inv t' a /\ ar t' = ar t /\ n t' = n t.
Proof.
  intros (Hn & Ha & Har & Hsz & HR). unfold rangeMin, depth_fuel.
  destruct (query_spec (S (Z.to_nat (n t))) t _ _ 1 0 (n t - 1) l r Hsz HR
              ltac:(lia)) as (t' & Hq & Hsz' & Har' & Hn' & HR' & _).
  exists t'. split; [exact Hq|]. split; [|split; assumption].
  unfold Inv. rewrite Hn', Har'. repeat split; try apply Hsz'; auto; lia.
Qed.

Lemma size_rangeUpdate (a : list Z) (l r v : Z) :
  Vec.size (Naive.rangeUpdate a l r v) = Vec.size a.
Proof. unfold Vec.size, Naive.rangeUpdate. rewrite length_imap. reflexivity. Qed.

Lemma arrf_rangeUpdate (a : list Z) (l r v k : Z) :
  0 <= k < Vec.size a ->
  arrf (Naive.rangeUpdate a l r v) k = upd (arrf a) l r v k.
Proof.
  intros Hk. unfold arrf, upd, Vec.get, Vec.rd, Naive.rangeUpdate, Vec.size in *.
  destruct (Z.leb_spec 0 k); [|lia].
  rewrite list_lookup_imap.
  destruct (lookup_lt_is_Some_2 a (Z.to_nat k)) as [x Hx]; [lia|].
  rewrite Hx. simpl. rewrite Z2Nat.id by lia. reflexivity.
Qed.

Lemma size_pointShift (a base : list Z) (i v : Z) :
  Vec.size (Naive.pointShift a base i v) = Vec.size a.
Proof. unfold Vec.size, Naive.pointShift. rewrite length_insert. reflexivity. Qed.

Lemma arrf_pointShift (a base : list Z) (i v k : Z) :
  0 <= i < Vec.size a ->
  arrf (Naive.pointShift a base i v) k =
  upd (arrf a) i i (v - Vec.get base i) k.
Proof.
  intros Hi. unfold arrf, upd, Naive.pointShift, Vec.size in *.
  rewrite get_insert by lia. rewrite Z2Nat.id by lia.
  destruct (Z.eqb_spec k i) as [->|]; zc.
Qed.

(** The facts below hold for any implementation of [rangeUpdate] that
    turns a representation of [f] into one of [upd f l r v]. *)
Section AnyRangeUpdate.

Variable ru : nat -> Z -> Z -> Z -> Z -> Z -> Z -> SegmentTree -> option SegmentTree.

Hypothesis ru_spec : forall (fuel : nat) (t : SegmentTree) m f i s e l r v,
  sized t m -> Rep m (Tv t) (Lv t) f i s e 0 ->
  e - s < Z.of_nat fuel ->
  exists t', ru fuel i s e l r v t = Some t' /\
    sized t' m /\ ar t' = ar t /\ n t' = n t /\
    Rep m (Tv t') (Lv t') (upd f l r v) i s e 0.

Lemma with_rangeUpdate_Inv (t : SegmentTree) (a a' : list Z) (l r v : Z) :
  Inv t a ->
  Vec.size a' = Vec.size a ->
  (forall k, 0 <= k < Vec.size a -> arrf a' k = upd (arrf a) l r v k) ->
  exists t', ru (depth_fuel t) 1 0 (n t - 1) l r v t = Some t' /\
    Inv t' a' /\ ar t' = ar t /\ n t' = n t.
Proof.
  intros (Hn & Ha & Har & Hsz & HR) Hsize Hval. unfold depth_fuel.
  destruct (ru_spec (S (Z.to_nat (n t))) t _ _ 1 0 (n t - 1) l r v Hsz HR
              ltac:(lia)) as (t' & Hq & Hsz' & Har' & Hn' & HR').
  exists t'. split; [exact Hq|]. split; [|split; assumption].
  unfold Inv. rewrite Hn', Har'. repeat split; try apply Hsz'; auto; try lia.
  eapply Rep_ext; [exact HR'|]. intros k Hk. symmetry. apply Hval. lia.
Qed.

Lemma with_updateRange_Inv (t : SegmentTree) (a : list Z) (l r v : Z) :
  Inv t a ->
  exists t', updateRange_with ru l r v t = Some t' /\
    Inv t' (Naive.rangeUpdate a l r v) /\ ar t' = ar t /\ n t' = n t.
Proof.
  intros HI. unfold updateRange_with.
  destruct (with_rangeUpdate_Inv t a (Naive.rangeUpdate a l r v) l r v HI)
    as (t' & Hu & HI' & Har & Hn).
  - apply size_rangeUpdate.
  - intros k Hk. apply arrf_rangeUpdate. exact Hk.
  - exists t'. split; [exact Hu|]. split; [exact HI'|]. split; assumption.
Qed.

Lemma with_pointUpdate_Inv (t : SegmentTree) (a : list Z) (i v : Z) :
  Inv t a -> 0 <= i <= n t - 1 ->
  exists t1 t',
    ru (depth_fuel t) 1 0 (n t - 1) i i (v - Vec.get (ar t) i) t = Some t1 /\
    pointUpdate_with ru i v t = Some t' /\
    Inv t' (Naive.pointShift a (ar t) i v) /\
    ar t' = <[Z.to_nat i := v]> (ar t) /\ n t' = n t /\
    segment_tree t' = segment_tree t1 /\ lazy t' = lazy t1.
Proof.
  intros HI Hi. pose proof HI as (Hn & Ha & Har & Hsz & HR).
  unfold pointUpdate_with. rewrite rd_get by lia. cbn [mbind option_bind].
  destruct (with_rangeUpdate_Inv t a (Naive.pointShift a (ar t) i v) i i
              (v - Vec.get (ar t) i) HI)
    as (t1 & Hu & HI1 & Har1 & Hn1).
  - apply size_pointShift.
  - intros k Hk. apply arrf_pointShift. lia.
  - rewrite Hu. cbn [mbind option_bind]. exists t1. unfold set_ar.
    destruct (wr_ok (ar t1) i v) as (w & Hw & Hwsz & _); [rewrite Har1; lia|].
    rewrite Hw. simpl. eexists. split; [reflexivity|]. split; [reflexivity|].
    assert (Hw' : w = <[Z.to_nat i := v]> (ar t)).
    { unfold Vec.wr in Hw. rewrite <- Har1.
      destruct ((0 <=? i) && (i <? Z.of_nat (length (ar t1)))); congruence. }
    destruct HI1 as (Hn' & Ha' & Har' & Hsz' & HR').
    split; [|repeat split; auto].
    unfold Inv. simpl. repeat split; auto; try apply Hsz'. lia.
Qed.


End AnyRangeUpdate.

Lemma rangeUpdate_meets_spec (fuel : nat) (t : SegmentTree) m f i s e l r v :
  sized t m -> Rep m (Tv t) (Lv t) f i s e 0 ->
  e - s < Z.of_nat fuel ->
  exists t', rangeUpdate fuel i s e l r v t = Some t' /\
    sized t' m /\ ar t' = ar t /\ n t' = n t /\
    Rep m (Tv t') (Lv t') (upd f l r v) i s e 0.
Proof.
  intros Hsz HR Hf.
  destruct (rangeUpdate_spec fuel t m f i s e l r v Hsz HR Hf)
    as (t' & H1 & H2 & H3 & H4 & _ & H5 & _).
  exists t'. repeat split; try apply H2; assumption.
Qed.

Lemma rangeUpdate_Inv (t : SegmentTree) (a a' : list Z) (l r v : Z) :
  Inv t a ->
  Vec.size a' = Vec.size a ->
  (forall k, 0 <= k < Vec.size a -> arrf a' k = upd (arrf a) l r v k) ->
  exists t', rangeUpdate (depth_fuel t) 1 0 (n t - 1) l r v t = Some t' /\
    Inv t' a' /\ ar t' = ar t /\ n t' = n t.
Proof. exact (with_rangeUpdate_Inv rangeUpdate rangeUpdate_meets_spec t a a' l r v). Qed.

Lemma updateRange_Inv (t : SegmentTree) (a : list Z) (l r v : Z) :
  Inv t a ->
  exists t', updateRange l r v t = Some t' /\
    Inv t' (Naive.rangeUpdate a l r v) /\ ar t' = ar t /\ n t' = n t.
Proof. exact (with_updateRange_Inv rangeUpdate rangeUpdate_meets_spec t a l r v). Qed.

Lemma pointUpdate_Inv (t : SegmentTree) (a : list Z) (i v : Z) :
  Inv t a -> 0 <= i <= n t - 1 ->
  exists t1 t',
    rangeUpdate (depth_fuel t) 1 0 (n t - 1) i i (v - Vec.get (ar t) i) t = Some t1 /\
    pointUpdate i v t = Some t' /\
    Inv t' (Naive.pointShift a (ar t) i v) /\
    ar t' = <[Z.to_nat i := v]> (ar t) /\ n t' = n t /\
    segment_tree t' = segment_tree t1 /\ lazy t' = lazy t1.
Proof. exact (with_pointUpdate_Inv rangeUpdate rangeUpdate_meets_spec t a i v). Qed.


(** ** Reachable states satisfy the invariant *)

Lemma reach_Inv (t : SegmentTree) (a : list Z) : reach t a -> Inv t a.
Proof.
  induction 1 as [A t HA Hb|t a l r v t' _ IH _ _ Hu|t a i v t' _ IH Hi Hu
                 |t a l r x t' _ IH _ _ Hq].
  - destruct (build_Inv A HA) as (t0 & Hb0 & HI & _). congruence.
  - destruct (updateRange_Inv t a l r v IH) as (t0 & Hu0 & HI & _). congruence.
  - destruct (pointUpdate_Inv t a i v IH Hi) as (t1 & t0 & _ & Hu0 & HI & _).
    congruence.
  - destruct (rangeMin_Inv t a l r IH) as (t0 & Hq0 & HI & _). congruence.
Qed.

(** ** Reading the answer at the root *)

Lemma qans_full (f : Z -> Z) (e : Z) :
  0 <= e -> qans f 0 e 0 e = minrange f 0 e.
Proof. intros He. unfold qans. zc. Qed.





(** ** The linear scan *)

Lemma get_lookup (l : list Z) (s y : Z) :
  0 <= s -> l !! Z.to_nat s = Some y -> Vec.get l s = y.
Proof.
  intros Hs Hy. unfold Vec.get, Vec.rd.
  destruct (Z.leb_spec 0 s); [|lia]. rewrite Hy. reflexivity.
Qed.

Lemma list_min_minfrom (l : list Z) : forall (k : nat) (s x : Z) (xs : list Z),
  0 <= s -> s + Z.of_nat k < Vec.size l ->
  take (S k) (drop (Z.to_nat s) l) = x :: xs ->
  Naive.list_min x xs = minfrom (arrf l) s k.
Proof.
  induction k as [|k IH]; intros s x xs Hs Hk Ht.
  - destruct (lookup_lt_is_Some_2 l (Z.to_nat s)) as [y Hy];
      [unfold Vec.size in Hk; lia|].
    rewrite (drop_S _ _ _ Hy) in Ht. cbn in Ht. injection Ht as <- <-.
    cbn. unfold arrf. symmetry. apply get_lookup; assumption.
  - destruct (lookup_lt_is_Some_2 l (Z.to_nat s)) as [y Hy];
      [unfold Vec.size in Hk; lia|].
    rewrite (drop_S _ _ _ Hy) in Ht.
    change (take (S (S k)) (y :: drop (S (Z.to_nat s)) l))
      with (y :: take (S k) (drop (S (Z.to_nat s)) l)) in Ht.
    injection Ht as <- <-.
    destruct (lookup_lt_is_Some_2 l (Z.to_nat (s + 1))) as [z Hz];
      [unfold Vec.size in Hk; lia|].
    replace (S (Z.to_nat s)) with (Z.to_nat (s + 1)) by lia.
    rewrite (drop_S _ _ _ Hz).
    change (take (S k) (z :: drop (S (Z.to_nat (s + 1))) l))
      with (z :: take k (drop (S (Z.to_nat (s + 1))) l)).
    cbn [Naive.list_min minfrom].
    rewrite (IH (s + 1) z (take k (drop (S (Z.to_nat (s + 1))) l)));
      [|lia|lia|rewrite (drop_S _ _ _ Hz); reflexivity].
    f_equal. unfold arrf. symmetry. apply get_lookup; assumption.
Qed.

Lemma naive_rangeMin_minrange (A : list Z) (ql qh : Z) :
  0 <= ql <= qh -> qh < Vec.size A ->
  Naive.rangeMin A ql qh = Some (minrange (arrf A) ql qh).
Proof.
  intros Hq Hh. unfold Naive.rangeMin, minrange.
  replace (Z.to_nat (qh - ql + 1)) with (S (Z.to_nat (qh - ql))) by lia.
  destruct (take (S (Z.to_nat (qh - ql))) (drop (Z.to_nat ql) A)) as [|x xs] eqn:E.
  - exfalso. destruct (lookup_lt_is_Some_2 A (Z.to_nat ql)) as [y Hy];
      [unfold Vec.size in Hh; lia|].
    rewrite (drop_S _ _ _ Hy) in E. discriminate.
  - cbn [Naive.min_all]. f_equal. apply list_min_minfrom; [lia|lia|exact E].
Qed.

Lemma naive_min_all_minrange (A : list Z) :
  A <> [] -> Naive.min_all A = Some (minrange (arrf A) 0 (Vec.size A - 1)).
Proof.
  intros HA. pose proof (size_nonempty A HA) as Hn.
  rewrite <- (naive_rangeMin_minrange A 0 (Vec.size A - 1)) by lia.
  unfold Naive.rangeMin. change (Z.to_nat 0) with 0%nat. rewrite drop_0.
  rewrite take_ge; [reflexivity|]. unfold Vec.size. lia.
Qed.

(** ** Auxiliary facts about sequences of operations *)




Lemma sample_reach : reach sample_tree sample_array.
Proof. apply reach_build; [discriminate|]. vm_compute. reflexivity. Qed.

Lemma sample_reachable : reachable sample_tree.
Proof. exists sample_array. exact sample_reach. Qed.

(** * The properties of the specification *)

(** ** Construction *)

(** C3 (build correctness): for every non-empty array [A] of size [N], the
    query over the full range [[0, N-1]] on the freshly built tree returns
    [min(A)]. *)
Theorem build_full_range_min (A : list Z) :
  A <> [] ->
  exists t x t',
    build A = Some t /\
    rangeMin 0 (Vec.size A - 1) t = Some (x, t') /\
    Naive.min_all A = Some x.
Proof.
  intros HA. destruct (build_Inv A HA) as (t & Hb & HI & _).
  destruct (rangeMin_Inv t A 0 (Vec.size A - 1) HI) as (t' & Hq & _).
  pose proof HI as (Hn & Hsz & _).
  exists t, (minrange (arrf A) 0 (Vec.size A - 1)), t'.
  split; [exact Hb|]. split.
  - rewrite Hq. rewrite <- Hsz. rewrite qans_full by lia. reflexivity.
  - apply naive_min_all_minrange. exact HA.
Qed.

Lemma build_full_range_min_witness :
  sample_array <> [] /\
  exists t x t',
    build sample_array = Some t /\
    rangeMin 0 (Vec.size sample_array - 1) t = Some (x, t') /\
    Naive.min_all sample_array = Some x.
Proof.
  split; [discriminate|]. apply (build_full_range_min sample_array). discriminate.
Defined.

(** ** One range update on a fresh tree *)

(** ** Queries *)





(** ** Updates *)



(** C10 (the base array is framed): in every reachable state, an in-range
    [updateRange] leaves [ar] unchanged, and so does [rangeMin]; an in-range
    [pointUpdate(pos, val)] runs [rangeUpdate] with the delta
    [val - ar[pos]] and then writes [ar[pos] = val], changing nothing else
    of the base array. *)
Theorem base_array_frame (t : SegmentTree) (l r v pos val : Z) :
  reachable t ->
  0 <= l <= r -> r <= n t - 1 -> 0 <= pos <= n t - 1 ->
  (exists t', updateRange l r v t = Some t' /\ ar t' = ar t) /\
  (exists x t', rangeMin l r t = Some (x, t') /\ ar t' = ar t) /\
  (exists t1 t',
      rangeUpdate (depth_fuel t) 1 0 (n t - 1) pos pos (val - Vec.get (ar t) pos) t
        = Some t1 /\
      pointUpdate pos val t = Some t' /\
      ar t1 = ar t /\
      ar t' = <[Z.to_nat pos := val]> (ar t) /\
      segment_tree t' = segment_tree t1 /\ lazy t' = lazy t1).
Proof.
  intros (a & Hr) _ _ Hpos. apply reach_Inv in Hr. split; [|split].
  - destruct (updateRange_Inv t a l r v Hr) as (t' & Hu & _ & Har & _). eauto.
  - destruct (rangeMin_Inv t a l r Hr) as (t' & Hq & _ & Har & _). eauto.
  - destruct (pointUpdate_Inv t a pos val Hr Hpos)
      as (t1 & t' & Hu & Hp & _ & Har & _ & HT & HL).
    exists t1, t'. repeat split; try assumption.
    destruct (rangeUpdate_Inv t a (Naive.pointShift a (ar t) pos val) pos pos
                (val - Vec.get (ar t) pos) Hr) as (t1' & Hu' & _ & Har1 & _).
    + apply size_pointShift.
    + intros k Hk. apply arrf_pointShift. destruct Hr as (_ & -> & _). lia.
    + congruence.
Qed.

Lemma base_array_frame_witness :
  (exists t', updateRange 1 3 2 sample_tree = Some t' /\ ar t' = ar sample_tree) /\
  (exists x t', rangeMin 1 3 sample_tree = Some (x, t') /\ ar t' = ar sample_tree) /\
  (exists t1 t',
      rangeUpdate (depth_fuel sample_tree) 1 0 (n sample_tree - 1) 2 2
        (0 - Vec.get (ar sample_tree) 2) sample_tree = Some t1 /\
      pointUpdate 2 0 sample_tree = Some t' /\
      ar t1 = ar sample_tree /\
      ar t' = <[Z.to_nat 2 := 0]> (ar sample_tree) /\
      segment_tree t' = segment_tree t1 /\ lazy t' = lazy t1).
Proof.
  apply (base_array_frame sample_tree 1 3 2 2 0).
  - exact sample_reachable.
  - lia.
  - vm_compute. discriminate.
  - vm_compute. split; discriminate.
Defined.

(** ** The node invariant *)


Lemma node_is_min_of_children m T L f i lo hi acc :
  Rep m T L f i lo hi acc -> lo < hi ->
  T i = Z.min (T (2 * i) + L (2 * i)) (T (2 * i + 1) + L (2 * i + 1)).
Proof.
  intros HR Hlt. destruct HR as [|i lo hi acc Hi Hse Hv Hl Hr]; [lia|].
  apply Rep_val in Hl. apply Rep_val in Hr.
  rewrite (minrange_split f lo ((lo + hi) / 2) hi) in Hv
    by (apply mid_bounds; lia).
  lia.
Qed.

(** ** Point updates *)






(** C7 (leaves and the base array): the code breaks it.  [updateRange] does
    not write the base array, so after [updateRange(0, 0, 3)] on the tree
    built from [[5]] the only leaf (slot 1, range [[0, 0]]) stores 8 with no
    pending delta while [ar[0]] is still 5. *)
Lemma leaf_differs_from_base_array :
  build [5] ≫= updateRange 0 0 3 = Some stale_tree /\
  covers (n stale_tree) 1 0 0 /\
  Tv stale_tree 1 = 8 /\ Lv stale_tree 1 = 0 /\
  Vec.get (ar stale_tree) 0 = 5.
Proof.
  split; [reflexivity|]. split; [exact (covers_root 1)|].
  repeat split; reflexivity.
Qed.

(** ** Skipping the entry flush *)







(** ** End-to-end scenarios *)

(** The scenario of examples/basic_usage.cpp: queries on
    [[1;3;2;4;5;6;7;8]], then [pointUpdate(2, 0)], then
    [updateRange(1, 3, 2)]. *)
Example basic_usage_scenario :
  fst <$> run [OpRangeMin 1 4; OpRangeMin 0 7; OpPointUpdate 2 0; OpRangeMin 1 4;
               OpUpdateRange 1 3 2; OpRangeMin 1 4] sample_tree
  = Some [2; 1; 0; 2].
Proof. vm_compute. reflexivity. Qed.

(** A single-element array: the query returns the element, and after a
    range update the element plus the delta. *)
Example single_element_scenario :
  (t ← build [42];
   '(a, t) ← rangeMin 0 0 t;
   t ← updateRange 0 0 (-2) t;
   '(b, t) ← rangeMin 0 0 t;
   Some [a; b]) = Some [42; 40].
Proof. vm_compute. reflexivity. Qed.

(** An empty array is outside the constructor's precondition: the root
    call reads [ar[0]]. *)
Example build_empty : build [] = None.
Proof. reflexivity. Qed.

(** * Further properties of the segment tree *)

Lemma qans_root_exact (f : Z -> Z) (k l r : Z) :
  0 <= l <= r -> r <= k - 1 ->
  qans f 0 (k - 1) l r = capped k l r (minrange f l r).
Proof.
  intros Hl Hr. unfold qans, capped.
  destruct (Z.eqb_spec l 0) as [->|]; destruct (Z.eqb_spec r (k - 1)) as [->|];
    cbn [andb]; zc; f_equal; f_equal; lia.
Qed.

(** X2: The constructor succeeds exactly on non-empty arrays: on the empty
    array the root call reads [ar[0]] outside the vector. *)
Theorem build_defined_iff_nonempty (A : list Z) :
  is_Some (build A) <-> A <> [].
Proof.
  split.
  - intros [t Ht] ->. discriminate.
  - intros HA. destruct (build_Inv A HA) as (t & Hb & _). exists t. exact Hb.
Qed.

(** X3: On a non-empty array of [N] elements the constructor copies the array,
    records [N], allocates [4N] slots for each node array without ever
    indexing outside them, and leaves no pending delta. *)
Theorem build_shape (A : list Z) :
  A <> [] ->
  exists t, build A = Some t /\
    ar t = A /\ n t = Vec.size A /\
    Vec.size (segment_tree t) = 4 * Vec.size A /\
    Vec.size (lazy t) = 4 * Vec.size A /\
    (forall j, Vec.get (lazy t) j = 0).
Proof.
  intros HA. destruct (build_Inv A HA) as (t & Hb & HI & Har & HL).
  destruct HI as (_ & Hn & _ & [HT HLz] & _).
  exists t. rewrite <- Hn in HT, HLz. repeat split; auto.
Qed.

Lemma build_shape_witness :
  exists t, build sample_array = Some t /\
    ar t = sample_array /\ n t = Vec.size sample_array /\
    Vec.size (segment_tree t) = 4 * Vec.size sample_array /\
    Vec.size (lazy t) = 4 * Vec.size sample_array /\
    (forall j, Vec.get (lazy t) j = 0).
Proof. apply (build_shape sample_array). discriminate. Defined.

(** X4: The sizes never change: in every reachable state [n >= 1], the base
    array has [n] elements and both node arrays have [4n] slots. *)
Theorem reachable_sizes (t : SegmentTree) :
  reachable t ->
  1 <= n t /\ Vec.size (ar t) = n t /\
  Vec.size (segment_tree t) = 4 * n t /\ Vec.size (lazy t) = 4 * n t.
Proof.
  intros (a & Hr). apply reach_Inv in Hr.
  destruct Hr as (Hn & _ & Har & [HT HL] & _). auto.
Qed.

Lemma reachable_sizes_witness :
  1 <= n pending_tree /\ Vec.size (ar pending_tree) = n pending_tree /\
  Vec.size (segment_tree pending_tree) = 4 * n pending_tree /\
  Vec.size (lazy pending_tree) = 4 * n pending_tree.
Proof.
  apply (reachable_sizes pending_tree).
  exists (Naive.rangeUpdate [0; 0] 0 1 5).
  apply (reach_updateRange two_zeros_tree [0; 0] 0 1 5).
  - apply reach_build; [discriminate|reflexivity].
  - lia.
  - vm_compute. discriminate.
  - reflexivity.
Defined.

(** X5: [pointUpdate] reads [ar[pos]] before anything else: in a reachable
    state it succeeds exactly when [pos] is an index of the array. *)
Theorem pointUpdate_defined_iff_in_range (t : SegmentTree) (pos val : Z) :
  reachable t ->
  is_Some (pointUpdate pos val t) <-> 0 <= pos <= n t - 1.
Proof.
  intros (a & Hr). apply reach_Inv in Hr. split.
  - intros [t' Ht']. unfold pointUpdate in Ht'.
    destruct (Vec.rd (ar t) pos) as [x|] eqn:E; [|discriminate].
    apply rd_Some_get in E. destruct Hr as (_ & _ & Har & _). lia.
  - intros Hpos. destruct (pointUpdate_Inv t a pos val Hr Hpos) as (_ & t' & _ & Hp & _).
    exists t'. exact Hp.
Qed.

Lemma pointUpdate_defined_iff_in_range_witness :
  is_Some (pointUpdate 8 0 sample_tree) <-> 0 <= 8 <= n sample_tree - 1.
Proof.
  apply (pointUpdate_defined_iff_in_range sample_tree 8 0).
  exists sample_array. apply reach_build; [discriminate|reflexivity].
Defined.

(** ** How updates compose *)








(** ** Bounds outside the array *)






(** ** What [pointUpdate] does *)

Lemma pointShift_in_sync (base : list Z) (i v : Z) :
  Naive.pointShift base base i v = <[Z.to_nat i := v]> base.
Proof. unfold Naive.pointShift. f_equal. lia. Qed.

Lemma reach_points_reach (t : SegmentTree) : reach_points t -> reach t (ar t).
Proof.
  induction 1 as [A t HA Hb|t i v t' _ IH Hi Hp|t l r x t' _ IH Hl Hr Hq].
  - destruct (build_Inv A HA) as (t0 & Hb0 & _ & Har & _).
    assert (t0 = t) by congruence. subst t0. rewrite Har.
    apply reach_build; assumption.
  - pose proof (reach_Inv _ _ IH) as HI.
    destruct (pointUpdate_Inv t (ar t) i v HI Hi) as (_ & t0 & _ & Hp0 & _ & Har & _).
    assert (t0 = t') by congruence. subst t0.
    rewrite Har, <- pointShift_in_sync.
    apply (reach_pointUpdate t (ar t) i v t' IH Hi Hp).
  - pose proof (reach_Inv _ _ IH) as HI.
    destruct (rangeMin_Inv t (ar t) l r HI) as (t0 & Hq0 & _ & Har & _).
    assert (t0 = t') by congruence. subst t0. rewrite Har.
    apply (reach_rangeMin t (ar t) l r x t' IH Hl Hr Hq).
Qed.

(** X13: As long as no [updateRange] has been applied, the base array is the
    logical array: every in-range query returns the minimum of [ar] over
    the range (capped by the sentinel unless the range is the whole
    array), and [pointUpdate(i, v)] makes the logical value at [i] equal
    to [v]. *)
Theorem base_array_is_logical_without_range_updates (t : SegmentTree) (l r i v : Z) :
  reach_points t ->
  0 <= l <= r -> r <= n t - 1 -> 0 <= i <= n t - 1 ->
  (exists m t',
      Naive.rangeMin (ar t) l r = Some m /\
      rangeMin l r t = Some (capped (n t) l r m, t')) /\
  (exists t1 t2,
      pointUpdate i v t = Some t1 /\
      rangeMin i i t1 = Some (capped (n t) i i v, t2)).
Proof.
  intros Hp Hl Hr Hi. apply reach_points_reach in Hp.
  pose proof (reach_Inv _ _ Hp) as HI. pose proof HI as (Hn & Ha & _). split.
  - destruct (rangeMin_Inv t (ar t) l r HI) as (t' & Hq & _).
    exists (minrange (arrf (ar t)) l r), t'. split.
    + apply naive_rangeMin_minrange; lia.
    + rewrite Hq, qans_root_exact by lia. reflexivity.
  - destruct (pointUpdate_Inv t (ar t) i v HI Hi) as (t0 & t1 & _ & Hu & HI1 & _ & Hn1 & _).
    destruct (rangeMin_Inv t1 _ i i HI1) as (t2 & Hq & _).
    exists t1, t2. split; [exact Hu|].
    rewrite Hq, Hn1, qans_root_exact by lia. do 3 f_equal.
    rewrite minrange_single, arrf_pointShift by lia.
    unfold upd, arrf. rewrite Z.leb_refl. cbn [andb]. lia.
Qed.

Lemma base_array_is_logical_without_range_updates_witness :
  (exists m t',
      Naive.rangeMin (ar sample_tree) 1 4 = Some m /\
      rangeMin 1 4 sample_tree = Some (capped (n sample_tree) 1 4 m, t')) /\
  (exists t1 t2,
      pointUpdate 2 0 sample_tree = Some t1 /\
      rangeMin 2 2 t1 = Some (capped (n sample_tree) 2 2 0, t2)).
Proof.
  apply (base_array_is_logical_without_range_updates sample_tree 1 4 2 0).
  - apply (rp_build sample_array); [discriminate|reflexivity].
  - lia.
  - vm_compute. discriminate.
  - vm_compute. split; discriminate.
Defined.

(** ** [push] *)

Lemma wr_rd_same (v v' : list Z) (i x : Z) :
  Vec.wr v i x = Some v' -> Vec.rd v' i = Some x.
Proof.
  unfold Vec.wr, Vec.rd. destruct (Z.leb_spec 0 i); [|discriminate].
  destruct (Z.ltb_spec i (Z.of_nat (length v))); [|discriminate].
  cbn [andb]. intros [= <-]. apply list_lookup_insert_eq. lia.
Qed.

(** X15: Flushing is idempotent: a second [push] of the same node finds no
    pending delta and returns the state unchanged. *)
Theorem push_idempotent (t t' : SegmentTree) (node s e : Z) :
  push node s e t = Some t' -> push node s e t' = Some t'.
Proof.
  unfold push at 1. intros H.
  destruct (Vec.rd (lazy t) node) as [ln|] eqn:Hln; [|discriminate].
  cbn [mbind option_bind] in H.
  destruct (Z.eqb_spec ln 0) as [->|Hne].
  - injection H as <-. unfold push. rewrite Hln. reflexivity.
  - destruct (Vec.rd (segment_tree t) node) as [tn|]; [|discriminate].
    cbn [mbind option_bind] in H.
    destruct (set_tree t node (tn + ln)) as [t1|]; [|discriminate].
    cbn [mbind option_bind] in H.
    destruct (if s =? e then Some t1 else _) as [t2|]; [|discriminate].
    cbn [mbind option_bind] in H.
    unfold set_lazy in H.
    destruct (Vec.wr (lazy t2) node 0) as [w|] eqn:Hw; [|discriminate].
    cbn [mbind option_bind] in H. injection H as <-.
    unfold push. cbn [lazy]. rewrite (wr_rd_same _ _ _ _ Hw). reflexivity.
Qed.

Lemma push_idempotent_witness :
  push 1 0 1 (MkSegmentTree [0; 0] [INF; 0; 0; 0] [0; 5; 0; 0] 2) =
    Some (MkSegmentTree [0; 0] [INF; 5; 0; 0] [0; 0; 5; 5] 2) /\
  push 1 0 1 (MkSegmentTree [0; 0] [INF; 5; 0; 0] [0; 0; 5; 5] 2) =
    Some (MkSegmentTree [0; 0] [INF; 5; 0; 0] [0; 0; 5; 5] 2).
Proof.
  split; [reflexivity|].
  apply (push_idempotent (MkSegmentTree [0; 0] [INF; 0; 0; 0] [0; 5; 0; 0] 2)).
  reflexivity.
Defined.




(** ** No pending deltas without range updates *)

Lemma wr_get (v v' : list Z) (i x : Z) :
  Vec.wr v i x = Some v' ->
  forall j, Vec.get v' j = if j =? i then x else Vec.get v j.
Proof.
  intros Hw. assert (Hi : 0 <= i < Vec.size v).
  { unfold Vec.wr, Vec.size in *. destruct (Z.leb_spec 0 i); [|discriminate].
    destruct (Z.ltb_spec i (Z.of_nat (length v))); [lia|discriminate]. }
  destruct (wr_ok v i x Hi) as (v'' & Hw' & _ & Hget).
  assert (v'' = v') by congruence. subst v''. exact Hget.
Qed.

Lemma set_lazy_Lv (t t' : SegmentTree) (i x : Z) :
  set_lazy t i x = Some t' ->
  forall j, Lv t' j = if j =? i then x else Lv t j.
Proof.
  unfold set_lazy. destruct (Vec.wr (lazy t) i x) as [w|] eqn:Hw; [|discriminate].
  intros [= <-] j. unfold Lv. cbn [lazy]. apply (wr_get _ _ _ _ Hw).
Qed.

Lemma set_tree_lazy (t t' : SegmentTree) (i x : Z) :
  set_tree t i x = Some t' -> lazy t' = lazy t.
Proof.
  unfold set_tree. destruct (Vec.wr (segment_tree t) i x); [|discriminate].
  intros [= <-]. reflexivity.
Qed.

Lemma push_no_pending (t t' : SegmentTree) (node s e : Z) :
  (forall j, Lv t j = 0) -> push node s e t = Some t' -> t' = t.
Proof.
  intros H0 Hp. unfold push in Hp.
  destruct (Vec.rd (lazy t) node) as [ln|] eqn:Hln; [|discriminate].
  apply rd_Some_get in Hln. destruct Hln as [Hln _].
  fold (Lv t node) in Hln. rewrite H0 in Hln. subst ln.
  cbn in Hp. congruence.
Qed.

Lemma query_no_pending (fuel : nat) : forall (t t' : SegmentTree) s e i l r x,
  (forall j, Lv t j = 0) ->
  query fuel s e i l r t = Some (x, t') -> t' = t.
Proof.
  induction fuel as [|fuel IH]; intros t t' s e i l r x H0 Hq; [discriminate|].
  cbn [query] in Hq.
  destruct (push i s e t) as [t1|] eqn:Hp; [|discriminate].
  apply (push_no_pending _ _ _ _ _ H0) in Hp. subst t1.
  cbn [mbind option_bind] in Hq.
  destruct ((r <? s) || (l >? e)); [congruence|].
  destruct ((l <=? s) && (e <=? r)).
  - destruct (Vec.rd (segment_tree t) i); [|discriminate]. cbn in Hq. congruence.
  - destruct (query fuel s (midpoint s e) (2 * i) l r t) as [[x1 t1]|] eqn:H1;
      [|discriminate].
    apply IH in H1; [|exact H0]. subst t1. cbn [mbind option_bind] in Hq.
    destruct (query fuel (midpoint s e + 1) e (2 * i + 1) l r t) as [[x2 t2]|] eqn:H2;
      [|discriminate].
    apply IH in H2; [|exact H0]. subst t2. cbn in Hq. congruence.
Qed.

Lemma rangeUpdate_point_no_pending (fuel : nat) :
  forall (t t' : SegmentTree) i s e pos v,
  0 <= s <= e ->
  (forall j, Lv t j = 0) ->
  rangeUpdate fuel i s e pos pos v t = Some t' ->
  forall j, Lv t' j = 0.
Proof.
  induction fuel as [|fuel IH]; intros t t' i s e pos v Hse H0 Hu; [discriminate|].
  cbn [rangeUpdate] in Hu.
  destruct (push i s e t) as [t1|] eqn:Hp; [|discriminate].
  apply (push_no_pending _ _ _ _ _ H0) in Hp. subst t1.
  cbn [mbind option_bind] in Hu.
  destruct ((s >? e) || (s >? pos) || (e <? pos)) eqn:Ho; [congruence|].
  destruct ((s >=? pos) && (e <=? pos)) eqn:Hin.
  - b2p Hin. assert (e = s) by lia. subst e.
    destruct (Vec.rd (lazy t) i) as [a|] eqn:Ha; [|discriminate].
    apply rd_Some_get in Ha. destruct Ha as [Ha _].
    fold (Lv t i) in Ha. rewrite H0 in Ha. subst a.
    cbn [mbind option_bind] in Hu.
    destruct (set_lazy t i (0 + v)) as [t2|] eqn:H2; [|discriminate].
    pose proof (set_lazy_Lv _ _ _ _ H2) as HL2.
    cbn [mbind option_bind] in Hu. unfold push in Hu.
    destruct (Vec.rd (lazy t2) i) as [ln|] eqn:Hln; [|discriminate].
    apply rd_Some_get in Hln. destruct Hln as [Hln _].
    fold (Lv t2 i) in Hln. rewrite HL2, Z.eqb_refl in Hln. subst ln.
    cbn [mbind option_bind] in Hu.
    destruct (Z.eqb_spec (0 + v) 0) as [Hv|Hv].
    + injection Hu as <-. intros j. rewrite HL2, H0. zb.
    + destruct (Vec.rd (segment_tree t2) i) as [tn|]; [|discriminate].
      cbn [mbind option_bind] in Hu.
      destruct (set_tree t2 i (tn + (0 + v))) as [t3|] eqn:H3; [|discriminate].
      apply set_tree_lazy in H3.
      cbn [mbind option_bind] in Hu. rewrite Z.eqb_refl in Hu.
      cbn [mbind option_bind] in Hu.
      pose proof (set_lazy_Lv _ _ _ _ Hu) as HL4.
      intros j. rewrite HL4. unfold Lv at 1. rewrite H3. fold (Lv t2 j).
      rewrite HL2, H0. zb.
  - assert (Hlt : s < e).
    { b2p Ho. b2p Hin. lia. }
    rewrite midpoint_div in Hu by lia.
    pose proof (mid_bounds s e Hlt) as Hm.
    destruct (rangeUpdate fuel (2 * i) s ((s + e) / 2) pos pos v t) as [t1|] eqn:H1;
      [|discriminate].
    pose proof (IH t t1 (2 * i) s ((s + e) / 2) pos v ltac:(lia) H0 H1) as HL1.
    cbn [mbind option_bind] in Hu.
    destruct (rangeUpdate fuel (2 * i + 1) ((s + e) / 2 + 1) e pos pos v t1)
      as [t2|] eqn:H2; [|discriminate].
    pose proof (IH t1 t2 (2 * i + 1) ((s + e) / 2 + 1) e pos v ltac:(lia) HL1 H2)
      as HL2.
    cbn [mbind option_bind] in Hu.
    destruct (Vec.rd (segment_tree t2) (2 * i)); [|discriminate].
    destruct (Vec.rd (segment_tree t2) (2 * i + 1)); [|discriminate].
    cbn [mbind option_bind] in Hu. apply set_tree_lazy in Hu.
    intros j. unfold Lv. rewrite Hu. apply HL2.
Qed.

Lemma reach_points_no_pending (t : SegmentTree) :
  reach_points t -> forall j, Lv t j = 0.
Proof.
  induction 1 as [A t HA Hb|t i v t' Hrp IH Hi Hp|t l r x t' _ IH Hl Hr Hq].
  - destruct (build_Inv A HA) as (t0 & Hb0 & _ & _ & HL). congruence.
  - pose proof (reach_Inv _ _ (reach_points_reach _ Hrp)) as (Hn & _).
    unfold pointUpdate in Hp.
    destruct (Vec.rd (ar t) i) as [a|]; [|discriminate].
    cbn [mbind option_bind] in Hp.
    destruct (rangeUpdate (depth_fuel t) 1 0 (n t - 1) i i (v - a) t) as [t1|] eqn:Hu;
      [|discriminate].
    pose proof (rangeUpdate_point_no_pending _ t t1 1 0 (n t - 1) i (v - a)
                  ltac:(lia) IH Hu) as HL1.
    cbn [mbind option_bind] in Hp. unfold set_ar in Hp.
    destruct (Vec.wr (ar t1) i v); [|discriminate].
    injection Hp as <-. exact HL1.
  - unfold rangeMin in Hq. apply query_no_pending in Hq; [|exact IH]. congruence.
Qed.

(** X14: As long as no [updateRange] has been applied, no delta is ever
    pending: every slot of [lazy] is zero, and a query, whatever its
    bounds, returns the state exactly as it found it. *)
Theorem no_pending_without_range_updates (t : SegmentTree) :
  reach_points t ->
  (forall j, Vec.get (lazy t) j = 0) /\
  (forall l r x t', rangeMin l r t = Some (x, t') -> t' = t).
Proof.
  intros Hp. pose proof (reach_points_no_pending t Hp) as H0. split.
  - exact H0.
  - intros l r x t' Hq. unfold rangeMin in Hq.
    apply (query_no_pending _ _ _ _ _ _ _ _ _ H0 Hq).
Qed.

Lemma no_pending_without_range_updates_witness :
  (forall j, Vec.get (lazy sample_tree) j = 0) /\
  (forall l r x t', rangeMin l r sample_tree = Some (x, t') -> t' = sample_tree).
Proof.
  apply (no_pending_without_range_updates sample_tree).
  apply (rp_build sample_array); [discriminate|reflexivity].
Defined.

(** * Utility functions of utilities/common.hpp *)

(** ** [toBinary] and [fromBinary] *)

Lemma bit_of_rem (n : Z) :
  0 < n ->
  (Z.rem n 2 = 0 /\ Common.to_char (Common.code "0" + Z.rem n 2) = "0"%char) \/
  (Z.rem n 2 = 1 /\ Common.to_char (Common.code "0" + Z.rem n 2) = "1"%char).
Proof.
  intros Hn. rewrite Z.rem_mod_nonneg by lia.
  pose proof (Z.mod_pos_bound n 2 ltac:(lia)) as Hb.
  assert (H : n mod 2 = 0 \/ n mod 2 = 1) by lia.
  destruct H as [-> | ->]; [left|right]; split; reflexivity.
Qed.

Lemma quot_rem_2 (n : Z) : 0 <= n -> n = 2 * Z.quot n 2 + Z.rem n 2.
Proof. intros _. apply Z.quot_rem'. Qed.

Lemma fromBinary_from_shift (b : Common.str) : forall x,
  Common.fromBinary_from x b =
  x * 2 ^ Z.of_nat (length b) + Common.fromBinary b.
Proof.
  unfold Common.fromBinary, Common.fromBinary_from.
  induction b as [|c b IH]; intros x; cbn [fold_left length].
  - change (2 ^ Z.of_nat 0) with 1. lia.
  - rewrite (IH (x * 2 + _)), (IH (0 * 2 + _)).
    rewrite Nat2Z.inj_succ, Z.pow_succ_r by lia. ring.
Qed.

Lemma fromBinary_from_app (a b : Common.str) (x : Z) :
  Common.fromBinary_from x (a ++ b) =
  Common.fromBinary_from (Common.fromBinary_from x a) b.
Proof. unfold Common.fromBinary_from. apply fold_left_app. Qed.

Lemma pow2_halve (n : Z) (fuel : nat) :
  0 < n -> n < 2 ^ Z.of_nat fuel ->
  0 <= Z.quot n 2 /\ exists fuel', fuel = S fuel' /\ Z.quot n 2 < 2 ^ Z.of_nat fuel'.
Proof.
  intros Hn Hlt. destruct fuel as [|fuel']; [simpl in Hlt; lia|].
  rewrite Nat2Z.inj_succ, Z.pow_succ_r in Hlt by lia.
  pose proof (quot_rem_2 n ltac:(lia)) as Hqr.
  destruct (bit_of_rem n Hn) as [[Hr _]|[Hr _]]; rewrite Hr in Hqr;
    (split; [lia|exists fuel'; split; [reflexivity|lia]]).
Qed.

(** The loop prepends to [acc] a string of digits [ds] whose value is [n];
    [ds] is empty for [n = 0] and starts with ['1'] otherwise. *)
Lemma toBinary_loop_spec (fuel : nat) : forall (n : Z) (acc : Common.str),
  0 <= n -> n < 2 ^ Z.of_nat fuel ->
  exists ds,
    Common.toBinary_loop (S fuel) n acc = Some (ds ++ acc) /\
    Forall Common.is_bit ds /\
    Common.fromBinary ds = n /\
    (n = 0 -> ds = []) /\
    (0 < n -> exists ds', ds = "1"%char :: ds').
Proof.
  induction fuel as [|fuel IH]; intros n acc Hn Hlt.
  - change (2 ^ Z.of_nat 0) with 1 in Hlt. assert (n = 0) by lia. subst n.
    exists []. repeat split; auto. lia.
  - cbn [Common.toBinary_loop]. destruct (Z.gtb_spec n 0) as [Hpos|Hz].
    + destruct (pow2_halve n (S fuel) Hpos Hlt) as (Hq & fuel' & [= <-] & Hq').
      destruct (IH (Z.quot n 2)
                  (Common.to_char (Common.code "0" + Z.rem n 2) :: acc) Hq Hq')
        as (ds & Hloop & Hbits & Hval & Hzero & Hhead).
      set (d := Common.to_char (Common.code "0" + Z.rem n 2)) in *.
      assert (Hd : Common.is_bit d /\ Common.code d - Common.code "0" = Z.rem n 2).
      { destruct (bit_of_rem n Hpos) as [[Hr Hc]|[Hr Hc]]; fold d in Hc;
          rewrite Hc, Hr; split; try reflexivity; [left|right]; reflexivity. }
      destruct Hd as [Hdbit Hdval].
      exists (ds ++ [d]). rewrite <- app_assoc. split; [exact Hloop|].
      split; [apply Forall_app; auto|]. split; [|split; [lia|]].
      * unfold Common.fromBinary. rewrite fromBinary_from_app.
        fold (Common.fromBinary ds). rewrite Hval.
        unfold Common.fromBinary_from. cbn [fold_left]. rewrite Hdval.
        pose proof (quot_rem_2 n Hn). lia.
      * intros _. destruct (Z.eq_dec (Z.quot n 2) 0) as [H0|H0].
        -- rewrite (Hzero H0). exists []. cbn [app]. f_equal.
           pose proof (quot_rem_2 n Hn) as Hqr. rewrite H0 in Hqr.
           destruct (bit_of_rem n Hpos) as [[Hr Hc]|[Hr Hc]]; [lia|exact Hc].
        -- destruct (Hhead ltac:(lia)) as [ds' ->]. exists (ds' ++ [d]). reflexivity.
    + assert (n = 0) by lia. subst n.
      exists []. repeat split; auto. lia.
Qed.

Lemma toBinary_fuel (n : Z) : 0 <= n -> n < 2 ^ Z.of_nat (S (Z.to_nat (Z.log2 n))).
Proof.
  intros Hn. destruct (Z.eq_dec n 0) as [->|Hne]; [reflexivity|].
  pose proof (Z.log2_spec n ltac:(lia)) as [_ Hhi].
  pose proof (Z.log2_nonneg n).
  rewrite Nat2Z.inj_succ, Z2Nat.id by lia. exact Hhi.
Qed.

Lemma toBinary_nonpositive (n : Z) : n <= 0 -> Common.toBinary n = Some ["0"%char].
Proof.
  intros Hn. unfold Common.toBinary. cbn [Common.toBinary_loop].
  destruct (Z.gtb_spec n 0); [lia|]. reflexivity.
Qed.

(** X17: Round trip: [toBinary] always returns, and [fromBinary] reads the
    number back when it is non-negative; a negative number is written as
    ["0"] and reads back as 0. *)
Theorem fromBinary_toBinary (n : Z) :
  Common.fromBinary <$> Common.toBinary n = Some (Z.max 0 n).
Proof.
  destruct (Z.le_gt_cases n 0) as [Hn|Hn].
  - rewrite toBinary_nonpositive by exact Hn.
    cbn. f_equal. lia.
  - destruct (toBinary_loop_spec _ n [] ltac:(lia) (toBinary_fuel n ltac:(lia)))
      as (ds & Hloop & _ & Hval & _ & Hhead).
    destruct (Hhead Hn) as [ds' ->]. unfold Common.toBinary.
    rewrite Hloop. cbn [mbind option_bind app fmap option_fmap option_map].
    rewrite app_nil_r. rewrite Hval. f_equal. lia.
Qed.

(** X18: The string written by [toBinary] is in canonical form: it is ["0"],
    or it starts with ['1'] and consists of binary digits; it is ["0"]
    exactly when [n <= 0]. *)
Theorem toBinary_canonical (n : Z) :
  exists s, Common.toBinary n = Some s /\ Common.canonical s /\
            (s = ["0"%char] <-> n <= 0).
Proof.
  destruct (Z.le_gt_cases n 0) as [Hn|Hn].
  - exists ["0"%char]. split; [apply toBinary_nonpositive; exact Hn|].
    split; [left; reflexivity|tauto].
  - destruct (toBinary_loop_spec _ n [] ltac:(lia) (toBinary_fuel n ltac:(lia)))
      as (ds & Hloop & Hbits & _ & _ & Hhead).
    destruct (Hhead Hn) as [ds' ->]. exists ("1"%char :: ds').
    unfold Common.toBinary. rewrite Hloop. cbn [mbind option_bind app].
    rewrite app_nil_r. split; [reflexivity|]. split.
    + right. exists ds'. split; [reflexivity|]. inversion Hbits; assumption.
    + split; [discriminate|lia].
Qed.

Lemma bit_value (d : ascii) :
  Common.is_bit d ->
  (Common.code d - Common.code "0" = 0 \/ Common.code d - Common.code "0" = 1) /\
  forall m, 0 <= m ->
    Common.to_char (Common.code "0" + Z.rem (m * 2 + (Common.code d - Common.code "0")) 2)
    = d /\
    Z.quot (m * 2 + (Common.code d - Common.code "0")) 2 = m.
Proof.
  intros [-> | ->]; (split; [auto|]); intros m Hm;
    change (Common.code "0" - Common.code "0") with 0;
    change (Common.code "1" - Common.code "0") with 1.
  - replace (m * 2 + 0) with (m * 2) by lia.
    rewrite Z.rem_mul, Z.quot_mul by lia. split; reflexivity.
  - rewrite Z.rem_mod_nonneg, Z.quot_div_nonneg by lia.
    replace (m * 2 + 1) with (1 + m * 2) by lia.
    rewrite Z.mod_add, Z.div_add by lia. split; [reflexivity|].
    change (1 / 2) with 0. lia.
Qed.

(** On the digits ["1" :: s'] the loop, given enough fuel, rebuilds exactly
    these digits. *)
Lemma toBinary_loop_digits (s' : Common.str) :
  Forall Common.is_bit s' ->
  1 <= Common.fromBinary ("1"%char :: s') /\
  forall (fuel : nat) (acc : Common.str),
    Common.fromBinary ("1"%char :: s') < 2 ^ Z.of_nat fuel ->
    Common.toBinary_loop (S fuel) (Common.fromBinary ("1"%char :: s')) acc =
    Some (("1"%char :: s') ++ acc).
Proof.
  induction s' as [|d s' IH] using rev_ind; intros Hbits.
  - change (Common.fromBinary ["1"%char]) with 1.
    split; [lia|]. intros fuel acc Hf.
    destruct fuel as [|fuel]; [change (2 ^ Z.of_nat 0) with 1 in Hf; lia|].
    reflexivity.
  - apply Forall_app in Hbits. destruct Hbits as [Hbits Hd].
    apply Forall_inv in Hd.
    destruct (IH Hbits) as [Hpos Hloop].
    set (m := Common.fromBinary ("1"%char :: s')) in *.
    assert (Hval : Common.fromBinary ("1"%char :: s' ++ [d]) =
                   m * 2 + (Common.code d - Common.code "0")).
    { change ("1"%char :: s' ++ [d]) with (("1"%char :: s') ++ [d]).
      unfold Common.fromBinary. rewrite fromBinary_from_app. reflexivity. }
    destruct (bit_value d Hd) as [Hd01 Hdm].
    destruct (Hdm m ltac:(lia)) as [Hchar Hquot].
    rewrite Hval. split; [lia|]. intros fuel acc Hf.
    cbn [Common.toBinary_loop].
    destruct (Z.gtb_spec (m * 2 + (Common.code d - Common.code "0")) 0); [|lia].
    rewrite Hchar, Hquot.
    destruct fuel as [|fuel]; [change (2 ^ Z.of_nat 0) with 1 in Hf; lia|].
    rewrite Hloop.
    + rewrite <- !app_comm_cons, <- app_assoc. reflexivity.
    + rewrite Nat2Z.inj_succ, Z.pow_succ_r in Hf by lia. lia.
Qed.

(** With exact arithmetic, [toBinary] writes back what [fromBinary] has
    read from a canonical string. *)
Lemma toBinary_fromBinary_exact (s : Common.str) :
  Common.canonical s ->
  Common.toBinary (Common.fromBinary s) = Some s.
Proof.
  intros [->|(s' & -> & Hbits)]; [reflexivity|].
  destruct (toBinary_loop_digits s' Hbits) as [Hpos Hloop].
  unfold Common.toBinary.
  rewrite Hloop by (apply toBinary_fuel; lia).
  rewrite app_nil_r. reflexivity.
Qed.

(** ** [isPalindrome] *)

Lemma at_Some (s : Common.str) (i : Z) :
  0 <= i < Z.of_nat (length s) -> exists c, Common.at_ s i = Some c.
Proof.
  intros Hi. unfold Common.at_. destruct (Z.leb_spec 0 i); [|lia].
  apply lookup_lt_is_Some_2. lia.
Qed.

Lemma isPalindrome_from_spec (s : Common.str) (k : nat) : forall i : Z,
  0 <= i -> 2 * (i + Z.of_nat k) <= Z.of_nat (length s) ->
  exists b, Common.isPalindrome_from s (Z.of_nat (length s)) i k = Some b /\
    (b = true <->
     forall j, i <= j < i + Z.of_nat k ->
               Common.at_ s j = Common.at_ s (Z.of_nat (length s) - 1 - j)).
Proof.
  induction k as [|k IH]; intros i Hi Hk.
  - exists true. split; [reflexivity|]. split; [intros _ j Hj; lia|reflexivity].
  - cbn [Common.isPalindrome_from].
    destruct (at_Some s i ltac:(lia)) as [a Ha].
    destruct (at_Some s (Z.of_nat (length s) - 1 - i) ltac:(lia)) as [b Hb].
    rewrite Ha, Hb. cbn [mbind option_bind].
    destruct (Ascii.eqb_spec a b) as [<-|Hne].
    + destruct (IH (i + 1) ltac:(lia) ltac:(lia)) as (r & Hr & Hiff).
      exists r. split; [exact Hr|]. rewrite Hiff. split.
      * intros H j Hj. destruct (Z.eq_dec j i) as [->|]; [congruence|].
        apply H. lia.
      * intros H j Hj. apply H. lia.
    + exists false. split; [reflexivity|]. split; [discriminate|].
      intros H. exfalso. apply Hne.
      specialize (H i ltac:(lia)). congruence.
Qed.

Lemma mirror_iff_reverse (s : Common.str) :
  (forall j, 0 <= j < Z.quot (Z.of_nat (length s)) 2 ->
             Common.at_ s j = Common.at_ s (Z.of_nat (length s) - 1 - j)) <->
  reverse s = s.
Proof.
  set (len := Z.of_nat (length s)).
  assert (Hq : 2 * Z.quot len 2 <= len /\ len < 2 * Z.quot len 2 + 2).
  { unfold len. rewrite Z.quot_div_nonneg by lia.
    pose proof (Z.div_mod (Z.of_nat (length s)) 2 ltac:(lia)).
    pose proof (Z.mod_pos_bound (Z.of_nat (length s)) 2 ltac:(lia)). lia. }
  assert (Hat : forall j : nat, (j < length s)%nat ->
            Common.at_ s (len - 1 - Z.of_nat j) = reverse s !! j).
  { intros j Hj. unfold Common.at_, len.
    destruct (Z.leb_spec 0 (Z.of_nat (length s) - 1 - Z.of_nat j)); [|lia].
    rewrite reverse_lookup by exact Hj. f_equal. lia. }
  assert (Hat0 : forall j : nat, Common.at_ s (Z.of_nat j) = s !! j).
  { intros j. unfold Common.at_. destruct (Z.leb_spec 0 (Z.of_nat j)); [|lia].
    rewrite Nat2Z.id. reflexivity. }
  split.
  - intros H. apply list_eq. intros j.
    destruct (Nat.lt_ge_cases j (length s)) as [Hj|Hj].
    + rewrite <- Hat by exact Hj. rewrite <- Hat0.
      destruct (Z.lt_ge_cases (Z.of_nat j) (Z.quot len 2)) as [Hlo|Hhi].
      * symmetry. apply H. lia.
      * destruct (Z.lt_ge_cases (len - 1 - Z.of_nat j) (Z.quot len 2)) as [Hlo'|Hhi'].
        -- rewrite (H (len - 1 - Z.of_nat j)) by lia. f_equal. lia.
        -- f_equal. unfold len in *. lia.
    + rewrite !lookup_ge_None_2; [reflexivity|lia|rewrite length_reverse; lia].
  - intros H j Hj.
    replace j with (Z.of_nat (Z.to_nat j)) by lia.
    rewrite Hat by (unfold len in *; lia). rewrite Hat0, H. reflexivity.
Qed.

(** X21: [isPalindrome] never reads outside the string and returns [true]
    exactly on the strings equal to their own reversal (the empty string
    included). *)
Theorem isPalindrome_iff_reverse (s : Common.str) :
  exists b, Common.isPalindrome s = Some b /\ (b = true <-> reverse s = s).
Proof.
  unfold Common.isPalindrome.
  set (len := Z.of_nat (length s)).
  assert (Hq : 0 <= Z.quot len 2 /\ 2 * Z.quot len 2 <= len).
  { unfold len. rewrite Z.quot_div_nonneg by lia.
    pose proof (Z.div_mod (Z.of_nat (length s)) 2 ltac:(lia)).
    pose proof (Z.mod_pos_bound (Z.of_nat (length s)) 2 ltac:(lia)). lia. }
  destruct (isPalindrome_from_spec s (Z.to_nat (Z.quot len 2)) 0 ltac:(lia))
    as (b & Hb & Hiff); [fold len; lia|].
  exists b. split; [exact Hb|]. rewrite Hiff, <- mirror_iff_reverse.
  fold len. rewrite Z2Nat.id by lia. reflexivity.
Qed.

(** * The segment tree on 64-bit integers *)

(** ** Wrap-around arithmetic *)

Ltac wrap_lia :=
  unfold Machine64.add64, Machine64.sub64, Machine64.wrap, Machine64.in64 in *;
  Z.div_mod_to_equations; lia.

Lemma wrap_in64 (z : Z) : Machine64.in64 (Machine64.wrap z).
Proof. wrap_lia. Qed.

Lemma wrap_id (z : Z) : Machine64.in64 z -> Machine64.wrap z = z.
Proof. intros H. wrap_lia. Qed.

Lemma wrap_add_l (a b : Z) :
  Machine64.wrap (Machine64.wrap a + b) = Machine64.wrap (a + b).
Proof. wrap_lia. Qed.

Lemma wrap_add_r (a b : Z) :
  Machine64.wrap (a + Machine64.wrap b) = Machine64.wrap (a + b).
Proof. wrap_lia. Qed.

Lemma wrap_congr (a a' b : Z) :
  Machine64.wrap a = Machine64.wrap a' ->
  Machine64.wrap (a + b) = Machine64.wrap (a' + b).
Proof. intros H. wrap_lia. Qed.

Lemma wrap_zero_small (d x : Z) :
  Machine64.wrap d = Machine64.wrap 0 ->
  Machine64.in64 x -> Machine64.in64 (x - d) -> d = 0.
Proof. intros H Hx Hxd. wrap_lia. Qed.

Lemma minrange_in64 (f : Z -> Z) (s e D : Z) :
  s <= e -> (forall k, s <= k <= e -> Machine64.in64 (f k - D)) ->
  Machine64.in64 (minrange f s e - D).
Proof.
  intros Hse H. unfold minrange.
  destruct (minfrom_attained f (Z.to_nat (e - s)) s) as (x & Hx & ->).
  apply H. lia.
Qed.

Lemma minrange_shift (f : Z -> Z) (v s e : Z) :
  minrange (fun k => f k + v) s e = minrange f s e + v.
Proof. unfold minrange. apply minfrom_add. Qed.

(** ** [push] on 64 bits *)

Lemma push64_spec (t : SegmentTree) (m node s e : Z) :
  sized t m -> 1 <= node < m -> (s <> e -> 2 * node + 1 < m) ->
  exists t', Machine64.push node s e t = Some t' /\ sized t' m /\
    ar t' = ar t /\ n t' = n t /\
    (forall j, Tv t' j =
       if j =? node
       then (if Lv t node =? 0 then Tv t node
             else Machine64.add64 (Tv t node) (Lv t node))
       else Tv t j) /\
    (forall j, Lv t' j =
       if j =? node then 0
       else if negb (s =? e) && ((j =? 2 * node) || (j =? 2 * node + 1))
            then (if Lv t node =? 0 then Lv t j
                  else Machine64.add64 (Lv t j) (Lv t node))
            else Lv t j).
Proof.
  intros Hsz Hn Hc. unfold Machine64.push.
  rewrite (rd_lazy t m) by (auto; lia). simpl.
  destruct (Z.eqb_spec (Lv t node) 0) as [H0|H0].
  - exists t. repeat split; try apply Hsz.
    + intros j. destruct (Z.eqb_spec j node) as [->|]; reflexivity.
    + intros j. destruct (Z.eqb_spec j node) as [->|]; [exact H0|].
      destruct (negb (s =? e) && ((j =? 2 * node) || (j =? 2 * node + 1)));
        reflexivity.
  - rewrite (rd_tree t m) by (auto; lia). simpl.
    destruct (set_tree_ok t m node (Machine64.add64 (Tv t node) (Lv t node))) as
      (t1 & -> & Hsz1 & Har1 & Hn1 & HT1 & HL1); [auto|lia|]. simpl.
    destruct (Z.eqb_spec s e) as [Hse|Hse]; simpl.
    + destruct (set_lazy_ok t1 m node 0) as
        (t2 & -> & Hsz2 & Har2 & Hn2 & HT2 & HL2); [auto|lia|].
      eexists; split; [reflexivity|]. repeat split; try apply Hsz2; try congruence.
      * intros j. rewrite HT2, HT1. reflexivity.
      * intros j. rewrite HL2, HL1. reflexivity.
    + specialize (Hc Hse).
      rewrite (rd_lazy t1 m) by (auto; lia). simpl.
      destruct (set_lazy_ok t1 m (2 * node)
                  (Machine64.add64 (Lv t1 (2 * node)) (Lv t node))) as
        (t2 & -> & Hsz2 & Har2 & Hn2 & HT2 & HL2); [auto|lia|]. simpl.
      rewrite (rd_lazy t2 m) by (auto; lia). simpl.
      destruct (set_lazy_ok t2 m (2 * node + 1)
                  (Machine64.add64 (Lv t2 (2 * node + 1)) (Lv t node))) as
        (t3 & -> & Hsz3 & Har3 & Hn3 & HT3 & HL3); [auto|lia|]. simpl.
      destruct (set_lazy_ok t3 m node 0) as
        (t4 & -> & Hsz4 & Har4 & Hn4 & HT4 & HL4); [auto|lia|].
      eexists; split; [reflexivity|]. repeat split; try apply Hsz4; try congruence.
      * intros j. rewrite HT4, HT3, HT2, HT1. reflexivity.
      * intros j. rewrite HL4, HL3, !HL2, !HL1.
        destruct (Z.eqb_spec j node); [reflexivity|].
        destruct (Z.eqb_spec j (2 * node + 1)); destruct (Z.eqb_spec j (2 * node));
          destruct (Z.eqb_spec (2 * node + 1) (2 * node)); simpl; try lia; subst;
          reflexivity.
Qed.

(** ** The representation predicate on 64 bits *)

Lemma Rep64_val m T L f i s e D :
  Machine64.Rep m T L f i s e D ->
  Machine64.wrap (T i + L i) = minrange f s e - D /\ Machine64.in64 (T i).
Proof.
  intros [? ? ? ? ? ? H|]; [rewrite minrange_single|]; split; assumption.
Qed.

Lemma Rep64_bounds m T L f i s e D :
  Machine64.Rep m T L f i s e D ->
  1 <= i < m /\ s <= e /\ (s <> e -> 0 <= s /\ 2 * i + 1 < m).
Proof.
  intros HR. destruct HR as [i s D Hi HT Hf Hv|i s e D d Hi Hse HT Hf Hv Hd Hl Hr];
    [lia|].
  assert (1 <= 2 * i + 1 < m) by (inversion Hr; assumption). lia.
Qed.

Lemma Rep64_in64 m T L f i s e D :
  Machine64.Rep m T L f i s e D ->
  forall k, s <= k <= e -> Machine64.in64 (f k - D).
Proof.
  intros HR. destruct HR as [i s D Hi HT Hf Hv|i s e D d Hi Hse HT Hf Hv Hd Hl Hr].
  - intros k Hk. replace k with s by lia. exact Hf.
  - exact Hf.
Qed.

Lemma Rep64_frame m T L T' L' f i s e D :
  Machine64.Rep m T L f i s e D ->
  (forall j, desc i j -> T' j = T j /\ L' j = L j) ->
  Machine64.Rep m T' L' f i s e D.
Proof.
  induction 1 as [i s D Hi HT Hf Hv|i s e D d Hi Hse HT Hf Hv Hd Hl IHl Hr IHr];
    intros Hfr; destruct (Hfr i (desc_refl i)) as [HTi HLi].
  - apply Machine64.Rep_leaf; try assumption; rewrite ?HTi, ?HLi; assumption.
  - apply (Machine64.Rep_node m T' L' f i s e D d); try assumption;
      rewrite ?HTi, ?HLi; try assumption.
    + apply IHl. intros j Hj. apply Hfr.
      apply (desc_child i (2 * i)); [lia|exact Hj].
    + apply IHr. intros j Hj. apply Hfr.
      apply (desc_child i (2 * i + 1)); [lia|exact Hj].
Qed.

Lemma Rep64_ext m T L f g i s e D :
  Machine64.Rep m T L f i s e D ->
  (forall k, s <= k <= e -> f k = g k) ->
  Machine64.Rep m T L g i s e D.
Proof.
  induction 1 as [i s D Hi HT Hf Hv|i s e D d Hi Hse HT Hf Hv Hd Hl IHl Hr IHr];
    intros Hfg.
  - apply Machine64.Rep_leaf; try assumption; rewrite <- Hfg by lia; assumption.
  - pose proof (mid_bounds s e ltac:(lia)).
    apply (Machine64.Rep_node m T L g i s e D d); try assumption.
    + intros k Hk. rewrite <- Hfg by lia. apply Hf. exact Hk.
    + rewrite <- (minrange_ext f g) by (auto; lia). exact Hv.
    + apply IHl. intros k Hk. apply Hfg. lia.
    + apply IHr. intros k Hk. apply Hfg. lia.
Qed.

Lemma Rep64_shift m T L f v i s e D :
  Machine64.Rep m T L f i s e D ->
  Machine64.Rep m T L (fun k => f k + v) i s e (D + v).
Proof.
  induction 1 as [i s D Hi HT Hf Hv|i s e D d Hi Hse HT Hf Hv Hd Hl IHl Hr IHr].
  - apply Machine64.Rep_leaf; try assumption.
    + replace (f s + v - (D + v)) with (f s - D) by lia. exact Hf.
    + rewrite Hv. lia.
  - apply (Machine64.Rep_node m T L _ i s e (D + v) d); try assumption.
    + intros k Hk. replace (f k + v - (D + v)) with (f k - D) by lia. auto.
    + rewrite minrange_shift, Hv. lia.
    + replace (D + v + d) with (D + d + v) by lia. exact IHl.
    + replace (D + v + d) with (D + d + v) by lia. exact IHr.
Qed.

(** Adding [x] to a node's own pending delta, modulo 2^64, is the same as
    taking [x] off the amount pending above it. *)
Lemma Rep64_relazy m T L T' L' f i s e D x :
  Machine64.Rep m T L f i s e D ->
  (forall j, desc i j -> T' j = T j) ->
  (forall j, desc i j -> j <> i -> L' j = L j) ->
  Machine64.wrap (L' i) = Machine64.wrap (L i + x) ->
  (forall k, s <= k <= e -> Machine64.in64 (f k - D + x)) ->
  Machine64.Rep m T' L' f i s e (D - x).
Proof.
  intros HR HT HL HLi Hin.
  destruct HR as [i s D Hi HTi Hf Hv|i s e D d Hi Hse HTi Hf Hv Hd Hl Hr].
  - pose proof (Hin s ltac:(lia)) as Hs.
    apply Machine64.Rep_leaf; try assumption.
    + rewrite HT by constructor. exact HTi.
    + replace (f s - (D - x)) with (f s - D + x) by lia. exact Hs.
    + rewrite HT by constructor.
      replace (f s - (D - x)) with (f s - D + x) by lia. wrap_lia.
  - assert (Hsub : forall c j, c = 2 * i \/ c = 2 * i + 1 -> desc c j ->
                               T' j = T j /\ L' j = L j).
    { intros c j Hc Hj. split.
      - apply HT. apply (desc_child i c); assumption.
      - apply HL; [apply (desc_child i c); assumption|].
        apply (desc_child_ne i c); [lia|assumption|assumption]. }
    assert (Hmin : Machine64.in64 (minrange f s e - D + x)).
    { replace (minrange f s e - D + x) with (minrange f s e - (D - x)) by lia.
      apply minrange_in64; [lia|]. intros k Hk.
      replace (f k - (D - x)) with (f k - D + x) by lia. auto. }
    apply (Machine64.Rep_node m T' L' f i s e (D - x) (d + x)); try assumption.
    + rewrite HT by constructor. exact HTi.
    + intros k Hk. replace (f k - (D - x)) with (f k - D + x) by lia. auto.
    + rewrite HT by constructor.
      replace (minrange f s e - (D - x)) with (minrange f s e - D + x) by lia.
      wrap_lia.
    + wrap_lia.
    + replace (D - x + (d + x)) with (D + d) by lia.
      eapply Rep64_frame; [exact Hl|]. intros j Hj. apply (Hsub (2 * i)); [lia|exact Hj].
    + replace (D - x + (d + x)) with (D + d) by lia.
      eapply Rep64_frame; [exact Hr|]. intros j Hj.
      apply (Hsub (2 * i + 1)); [lia|exact Hj].
Qed.

(** Below a node without pending delta the children see the same amount
    pending above them as the node does. *)
Lemma Rep64_children m T L f i s e D :
  Machine64.Rep m T L f i s e D -> s <> e -> L i = 0 ->
  Machine64.Rep m T L f (2 * i) s ((s + e) / 2) D /\
  Machine64.Rep m T L f (2 * i + 1) ((s + e) / 2 + 1) e D.
Proof.
  intros HR Hse H0.
  destruct HR as [|i s e D d Hi Hlt HTi Hf Hv Hd Hl Hr]; [lia|].
  assert (d = 0).
  { rewrite H0 in Hd. pose proof (mid_bounds s e ltac:(lia)).
    pose proof (Rep64_in64 _ _ _ _ _ _ _ _ Hl s ltac:(lia)) as Hc.
    apply (wrap_zero_small d (f s - D)); [exact Hd|apply Hf; lia|].
    replace (f s - D - d) with (f s - (D + d)) by lia. exact Hc. }
  subst d. replace (D + 0) with D in * by lia. split; assumption.
Qed.

Lemma Rep64_node0 m T L f i s e D :
  1 <= i < m -> 0 <= s < e ->
  Machine64.in64 (T i) -> L i = 0 ->
  T i = minrange f s e - D ->
  Machine64.Rep m T L f (2 * i) s ((s + e) / 2) D ->
  Machine64.Rep m T L f (2 * i + 1) ((s + e) / 2 + 1) e D ->
  Machine64.Rep m T L f i s e D.
Proof.
  intros Hi Hse HT HL Hv Hl Hr.
  pose proof (mid_bounds s e ltac:(lia)) as Hm.
  apply (Machine64.Rep_node m T L f i s e D 0); try assumption.
  - intros k Hk. destruct (Z.le_gt_cases k ((s + e) / 2)).
    + apply (Rep64_in64 _ _ _ _ _ _ _ _ Hl). lia.
    + apply (Rep64_in64 _ _ _ _ _ _ _ _ Hr). lia.
  - rewrite HL, Z.add_0_r, wrap_id by exact HT. exact Hv.
  - rewrite HL. reflexivity.
  - replace (D + 0) with D by lia. exact Hl.
  - replace (D + 0) with D by lia. exact Hr.
Qed.

Lemma push64_Rep (t : SegmentTree) m f i s e D :
  sized t m -> Machine64.Rep m (Tv t) (Lv t) f i s e D ->
  exists t', Machine64.push i s e t = Some t' /\ sized t' m /\
    ar t' = ar t /\ n t' = n t /\
    Lv t' i = 0 /\ Tv t' i = minrange f s e - D /\
    Machine64.Rep m (Tv t') (Lv t') f i s e D /\
    (forall j, ~ desc i j -> Tv t' j = Tv t j /\ Lv t' j = Lv t j).
Proof.
  intros Hsz HR.
  destruct (Rep64_bounds _ _ _ _ _ _ _ _ HR) as (Hi & Hse & Hc).
  destruct (Rep64_val _ _ _ _ _ _ _ _ HR) as [Hval HTi].
  destruct (push64_spec t m i s e Hsz Hi) as (t' & Hp & Hsz' & Har & Hn & HT & HL).
  { intros H. apply Hc. exact H. }
  assert (HTi' : Tv t' i = minrange f s e - D).
  { rewrite HT, Z.eqb_refl. rewrite <- Hval.
    destruct (Z.eqb_spec (Lv t i) 0) as [H0|H0]; [|reflexivity].
    rewrite H0, Z.add_0_r, wrap_id by exact HTi. reflexivity. }
  assert (HLi' : Lv t' i = 0) by (rewrite HL, Z.eqb_refl; reflexivity).
  assert (Hmin : Machine64.in64 (minrange f s e - D)).
  { apply minrange_in64; [lia|]. apply (Rep64_in64 _ _ _ _ _ _ _ _ HR). }
  exists t'. split; [exact Hp|]. split; [exact Hsz'|].
  split; [exact Har|]. split; [exact Hn|].
  split; [exact HLi'|]. split; [exact HTi'|]. split.
  - destruct HR as [i s D Hi' HTs Hf Hv|i s e D d Hi' Hlt HTs Hf Hv Hd Hl Hr].
    + rewrite minrange_single in *.
      apply Machine64.Rep_leaf; try assumption.
      * rewrite HTi'. exact Hf.
      * rewrite HTi', HLi', Z.add_0_r. apply wrap_id. exact Hf.
    + assert (Hd' : forall c j, c = 2 * i \/ c = 2 * i + 1 -> desc c j ->
                Tv t' j = Tv t j /\ (j <> c -> Lv t' j = Lv t j)).
      { intros c j Hcc Hj. apply desc_ge in Hj; [|lia].
        rewrite HT, HL. split; [zb|intros; zb]. }
      assert (HLc : forall c, c = 2 * i \/ c = 2 * i + 1 ->
                Machine64.wrap (Lv t' c) = Machine64.wrap (Lv t c + d)).
      { intros c Hcc. rewrite HL.
        destruct (Z.eqb_spec c i); [lia|].
        destruct (Z.eqb_spec s e); [lia|].
        replace ((c =? 2 * i) || (c =? 2 * i + 1)) with true
          by (destruct Hcc as [-> | ->]; rewrite Z.eqb_refl, ?orb_true_r; reflexivity).
        cbn [negb andb].
        destruct (Z.eqb_spec (Lv t i) 0) as [H0|H0]; [rewrite H0 in Hd|]; wrap_lia. }
      apply (Rep64_node0 m _ _ f i s e D); try assumption.
      * rewrite HTi'. exact Hmin.
      * pose proof (mid_bounds s e ltac:(lia)).
        replace D with (D + d - d) by lia.
        eapply Rep64_relazy; [exact Hl| | | |].
        -- intros j Hj. apply (Hd' (2 * i)); [lia|exact Hj].
        -- intros j Hj Hne. apply (Hd' (2 * i)); [lia|exact Hj|exact Hne].
        -- apply HLc. lia.
        -- intros k Hk. replace (f k - (D + d) + d) with (f k - D) by lia.
           apply Hf. lia.
      * pose proof (mid_bounds s e ltac:(lia)).
        replace D with (D + d - d) by lia.
        eapply Rep64_relazy; [exact Hr| | | |].
        -- intros j Hj. apply (Hd' (2 * i + 1)); [lia|exact Hj].
        -- intros j Hj Hne. apply (Hd' (2 * i + 1)); [lia|exact Hj|exact Hne].
        -- apply HLc. lia.
        -- intros k Hk. replace (f k - (D + d) + d) with (f k - D) by lia.
           apply Hf. lia.
  - intros j Hj. split.
    + rewrite HT. destruct (Z.eqb_spec j i) as [->|]; [|reflexivity].
      exfalso. apply Hj. constructor.
    + rewrite HL. destruct (Z.eqb_spec j i) as [->|].
      { exfalso. apply Hj. constructor. }
      destruct (Z.eqb_spec j (2 * i)) as [->|].
      { exfalso. apply Hj. constructor. constructor. }
      destruct (Z.eqb_spec j (2 * i + 1)) as [->|].
      { exfalso. apply Hj. constructor. constructor. }
      rewrite andb_false_r. reflexivity.
Qed.

(** ** [query] on 64 bits *)

Lemma query64_spec (fuel : nat) : forall (t : SegmentTree) m f i s e l r,
  sized t m -> Machine64.Rep m (Tv t) (Lv t) f i s e 0 ->
  e - s < Z.of_nat fuel ->
  exists t', Machine64.query fuel s e i l r t = Some (qans f s e l r, t') /\
    sized t' m /\ ar t' = ar t /\ n t' = n t /\
    Machine64.Rep m (Tv t') (Lv t') f i s e 0 /\
    (forall j, ~ desc i j -> Tv t' j = Tv t j /\ Lv t' j = Lv t j).
Proof.
  induction fuel as [|fuel IH]; intros t m f i s e l r Hsz HR Hf.
  { apply Rep64_bounds in HR. lia. }
  destruct (Rep64_bounds _ _ _ _ _ _ _ _ HR) as (Hi & Hse & Hc).
  destruct (push64_Rep t m f i s e 0 Hsz HR)
    as (t1 & Hp & Hsz1 & Har1 & Hn1 & HL1 & HT1 & HR1 & Hfr1).
  cbn [Machine64.query]. rewrite Hp. simpl.
  destruct ((r <? s) || (l >? e)) eqn:Ho.
  { exists t1. rewrite qans_out by exact Ho. repeat split; try apply Hsz1; auto;
      apply Hfr1; assumption. }
  destruct ((l <=? s) && (e <=? r)) eqn:Hin.
  { rewrite (rd_tree t1 m) by (auto; lia). simpl. exists t1.
    rewrite qans_in by assumption.
    replace (Tv t1 i) with (minrange f s e) by lia.
    repeat split; try apply Hsz1; auto; apply Hfr1; assumption. }
  pose proof (partial_lt s e l r Hse Ho Hin) as Hlt.
  destruct (Hc ltac:(lia)) as [Hs0 Hc2].
  destruct (Rep64_children _ _ _ _ _ _ _ _ HR1 ltac:(lia) HL1) as [HRl HRr].
  rewrite midpoint_div by lia.
  pose proof (mid_bounds s e Hlt) as Hm.
  set (mid := (s + e) / 2) in *.
  destruct (IH t1 m f (2 * i) s mid l r Hsz1 HRl ltac:(lia))
    as (t2 & Hq2 & Hsz2 & Har2 & Hn2 & HR2 & Hfr2).
  rewrite Hq2. simpl.
  assert (HRr2 : Machine64.Rep m (Tv t2) (Lv t2) f (2 * i + 1) (mid + 1) e 0).
  { eapply Rep64_frame; [exact HRr|]. intros j Hj. apply Hfr2.
    intros Hd. apply (siblings_disjoint i j); [lia|assumption|assumption]. }
  destruct (IH t2 m f (2 * i + 1) (mid + 1) e l r Hsz2 HRr2 ltac:(lia))
    as (t3 & Hq3 & Hsz3 & Har3 & Hn3 & HR3 & Hfr3).
  rewrite Hq3. simpl. exists t3.
  rewrite qans_split by assumption.
  assert (Hself : Tv t3 i = Tv t1 i /\ Lv t3 i = Lv t1 i).
  { destruct (Hfr3 i) as [-> ->];
      [intros Hd; apply (desc_child_ne i (2 * i + 1) i) in Hd; lia|].
    apply Hfr2. intros Hd. apply (desc_child_ne i (2 * i) i) in Hd; lia. }
  destruct Hself as [HT3 HL3].
  split; [reflexivity|]. split; [exact Hsz3|].
  split; [congruence|]. split; [congruence|]. split; [|intros j H; split].
  - apply (Rep64_node0 m _ _ f i s e 0); try lia.
    + rewrite HT3. apply (Rep64_val _ _ _ _ _ _ _ _ HR1).
    + fold mid. eapply Rep64_frame; [exact HR2|]. intros j Hj. apply Hfr3.
      intros Hd. apply (siblings_disjoint i j); [lia|assumption|assumption].
    + fold mid. exact HR3.
  - destruct (Hfr3 j) as [-> _];
      [intros Hd; apply H; apply (desc_child i (2 * i + 1)); [lia|exact Hd]|].
    destruct (Hfr2 j) as [-> _];
      [intros Hd; apply H; apply (desc_child i (2 * i)); [lia|exact Hd]|].
    apply Hfr1. exact H.
  - destruct (Hfr3 j) as [_ ->];
      [intros Hd; apply H; apply (desc_child i (2 * i + 1)); [lia|exact Hd]|].
    destruct (Hfr2 j) as [_ ->];
      [intros Hd; apply H; apply (desc_child i (2 * i)); [lia|exact Hd]|].
    apply Hfr1. exact H.
Qed.

(** ** [rangeUpdate] on 64 bits *)

Lemma Rep64_settled m T L f i s e :
  Machine64.Rep m T L f i s e 0 -> L i = 0 ->
  T i = minrange f s e /\ Machine64.in64 (T i).
Proof.
  intros HR H0. destruct (Rep64_val _ _ _ _ _ _ _ _ HR) as [Hv HT].
  rewrite H0, Z.add_0_r, wrap_id in Hv by exact HT. split; [lia|exact HT].
Qed.

(** [v] is the delta passed to the function and [v'] the amount it stands
    for; they agree modulo 2^64. *)
Lemma rangeUpdate64_spec (fuel : nat) :
  forall (t : SegmentTree) m f i s e l r v v',
  sized t m -> Machine64.Rep m (Tv t) (Lv t) f i s e 0 ->
  Machine64.wrap v = Machine64.wrap v' ->
  (forall k, s <= k <= e -> Machine64.in64 (upd f l r v' k)) ->
  e - s < Z.of_nat fuel ->
  exists t', Machine64.rangeUpdate fuel i s e l r v t = Some t' /\
    sized t' m /\ ar t' = ar t /\ n t' = n t /\
    Lv t' i = 0 /\
    Machine64.Rep m (Tv t') (Lv t') (upd f l r v') i s e 0 /\
    (forall j, ~ desc i j -> Tv t' j = Tv t j /\ Lv t' j = Lv t j).
Proof.
  induction fuel as [|fuel IH]; intros t m f i s e l r v v' Hsz HR Hv Hin64 Hf.
  { apply Rep64_bounds in HR. lia. }
  destruct (Rep64_bounds _ _ _ _ _ _ _ _ HR) as (Hi & Hse & Hc).
  destruct (push64_Rep t m f i s e 0 Hsz HR)
    as (t1 & Hp & Hsz1 & Har1 & Hn1 & HL1 & HT1 & HR1 & Hfr1).
  cbn [Machine64.rangeUpdate]. rewrite Hp. simpl.
  destruct ((s >? e) || (s >? r) || (e <? l)) eqn:Ho.
  { exists t1. repeat split; try apply Hsz1; auto; try (apply Hfr1; assumption).
    eapply Rep64_ext; [exact HR1|]. intros k Hk. symmetry.
    apply (upd_out f s e); assumption. }
  destruct ((s >=? l) && (e <=? r)) eqn:Hin.
  { rewrite (rd_lazy t1 m) by (auto; lia). simpl.
    destruct (set_lazy_ok t1 m i (Machine64.add64 (Lv t1 i) v) Hsz1 ltac:(lia))
      as (t2 & -> & Hsz2 & Har2 & Hn2 & HT2 & HL2). simpl.
    assert (HR2 : Machine64.Rep m (Tv t2) (Lv t2) (upd f l r v') i s e 0).
    { apply (Rep64_ext m _ _ (fun k => f k + v')).
      - assert (Hneg : Machine64.Rep m (Tv t2) (Lv t2) f i s e (0 - v')).
        { eapply Rep64_relazy; [exact HR1| | | |].
          + intros j _. apply HT2.
          + intros j _ Hne. rewrite HL2. zb.
          + rewrite HL2, Z.eqb_refl, HL1. wrap_lia.
          + intros k Hk.
            replace (f k - 0 + v') with (upd f l r v' k);
              [auto|rewrite (upd_in f s e) by assumption; lia]. }
        apply (Rep64_shift _ _ _ _ v') in Hneg.
        replace (0 - v' + v') with 0 in Hneg by lia. exact Hneg.
      - intros k Hk. symmetry. apply (upd_in f s e); assumption. }
    destruct (push64_Rep t2 m _ i s e 0 Hsz2 HR2)
      as (t3 & Hp3 & Hsz3 & Har3 & Hn3 & HL3 & _ & HR3 & Hfr3).
    exists t3. repeat split; try apply Hsz3; try congruence.
    - destruct (Hfr3 j H) as [-> _]. rewrite HT2. apply Hfr1. exact H.
    - destruct (Hfr3 j H) as [_ ->]. rewrite HL2.
      destruct (Z.eqb_spec j i) as [->|]; [exfalso; apply H; constructor|].
      apply Hfr1. exact H. }
  pose proof (partial_update_lt s e l r Hse Ho Hin) as Hlt.
  destruct (Hc ltac:(lia)) as [Hs0 Hc2].
  destruct (Rep64_children _ _ _ _ _ _ _ _ HR1 ltac:(lia) HL1) as [HRl HRr].
  rewrite midpoint_div by lia.
  pose proof (mid_bounds s e Hlt) as Hm.
  set (mid := (s + e) / 2) in *.
  set (g := upd f l r v') in *.
  destruct (IH t1 m f (2 * i) s mid l r v v' Hsz1 HRl Hv
              ltac:(intros k Hk; apply Hin64; lia) ltac:(lia))
    as (t2 & Hq2 & Hsz2 & Har2 & Hn2 & HL2 & HR2 & Hfr2).
  rewrite Hq2. simpl.
  assert (HRr2 : Machine64.Rep m (Tv t2) (Lv t2) f (2 * i + 1) (mid + 1) e 0).
  { eapply Rep64_frame; [exact HRr|]. intros j Hj. apply Hfr2.
    intros Hd. apply (siblings_disjoint i j); [lia|assumption|assumption]. }
  destruct (IH t2 m f (2 * i + 1) (mid + 1) e l r v v' Hsz2 HRr2 Hv
              ltac:(intros k Hk; apply Hin64; lia) ltac:(lia))
    as (t3 & Hq3 & Hsz3 & Har3 & Hn3 & HL3 & HR3 & Hfr3).
  rewrite Hq3. simpl. fold g in HR2, HR3.
  assert (HR2' : Machine64.Rep m (Tv t3) (Lv t3) g (2 * i) s mid 0).
  { eapply Rep64_frame; [exact HR2|]. intros j Hj. apply Hfr3.
    intros Hd. apply (siblings_disjoint i j); [lia|assumption|assumption]. }
  assert (HL2' : Lv t3 (2 * i) = 0).
  { destruct (Hfr3 (2 * i)) as [_ ->]; [|exact HL2].
    intros Hd. apply desc_ge in Hd; lia. }
  assert (Hself : Lv t3 i = 0).
  { destruct (Hfr3 i) as [_ ->];
      [intros Hd; apply (desc_child_ne i (2 * i + 1) i) in Hd; lia|].
    destruct (Hfr2 i) as [_ ->];
      [intros Hd; apply (desc_child_ne i (2 * i) i) in Hd; lia|]. exact HL1. }
  destruct (Rep64_settled _ _ _ _ _ _ _ HR2' HL2') as [Hv2 Hi2].
  destruct (Rep64_settled _ _ _ _ _ _ _ HR3 HL3) as [Hv3 Hi3].
  rewrite (rd_tree t3 m) by (auto; lia). simpl.
  rewrite (rd_tree t3 m) by (auto; lia). simpl.
  destruct (set_tree_ok t3 m i (Z.min (Tv t3 (2 * i)) (Tv t3 (2 * i + 1))) Hsz3
              ltac:(lia)) as (t4 & -> & Hsz4 & Har4 & Hn4 & HT4 & HL4).
  exists t4.
  assert (Hkeep : forall c j, c = 2 * i \/ c = 2 * i + 1 -> desc c j ->
                    Tv t4 j = Tv t3 j /\ Lv t4 j = Lv t3 j).
  { intros c j Hcc Hj. apply (desc_child_ne i c j) in Hj; [|lia|exact Hcc].
    rewrite HT4, HL4. zb. }
  split; [reflexivity|]. split; [exact Hsz4|].
  split; [congruence|]. split; [congruence|].
  split; [rewrite HL4; exact Hself|]. split; [|intros j H; split].
  - apply (Rep64_node0 m _ _ g i s e 0); try lia.
    + rewrite HT4, Z.eqb_refl. unfold Machine64.in64 in *. lia.
    + rewrite HL4. exact Hself.
    + rewrite HT4, Z.eqb_refl, (minrange_split g s mid e) by lia. lia.
    + fold mid. eapply Rep64_frame; [exact HR2'|]. intros j Hj.
      apply (Hkeep (2 * i)); [lia|exact Hj].
    + fold mid. eapply Rep64_frame; [exact HR3|]. intros j Hj.
      apply (Hkeep (2 * i + 1)); [lia|exact Hj].
  - rewrite HT4. destruct (Z.eqb_spec j i) as [->|]; [exfalso; apply H; constructor|].
    destruct (Hfr3 j) as [-> _];
      [intros Hd; apply H; apply (desc_child i (2 * i + 1)); [lia|exact Hd]|].
    destruct (Hfr2 j) as [-> _];
      [intros Hd; apply H; apply (desc_child i (2 * i)); [lia|exact Hd]|].
    apply Hfr1. exact H.
  - rewrite HL4.
    destruct (Hfr3 j) as [_ ->];
      [intros Hd; apply H; apply (desc_child i (2 * i + 1)); [lia|exact Hd]|].
    destruct (Hfr2 j) as [_ ->];
      [intros Hd; apply H; apply (desc_child i (2 * i)); [lia|exact Hd]|].
    apply Hfr1. exact H.
Qed.

(** ** The public operations on 64 bits *)

Lemma Rep_exact_to_64 m T L f i s e acc :
  Rep m T L f i s e acc ->
  (forall j, L j = 0) -> acc = 0 ->
  (forall k, s <= k <= e -> Machine64.in64 (f k)) ->
  Machine64.Rep m T L f i s e 0.
Proof.
  induction 1 as [i s acc Hi Hv|i s e acc Hi Hse Hv Hl IHl Hr IHr];
    intros HL0 -> Hin.
  - rewrite HL0 in Hv.
    assert (HT : T i = f s) by lia.
    pose proof (Hin s ltac:(lia)) as Hs.
    apply Machine64.Rep_leaf; try assumption.
    + rewrite HT. exact Hs.
    + replace (f s - 0) with (f s) by lia. exact Hs.
    + rewrite HL0, Z.add_0_r, HT, wrap_id by exact Hs. lia.
  - rewrite HL0 in *. pose proof (mid_bounds s e ltac:(lia)) as Hm.
    assert (HT : T i = minrange f s e) by lia.
    assert (Hmin : Machine64.in64 (minrange f s e)).
    { replace (minrange f s e) with (minrange f s e - 0) by lia.
      apply minrange_in64; [lia|]. intros k Hk.
      replace (f k - 0) with (f k) by lia. auto. }
    apply (Rep64_node0 m T L f i s e 0); try assumption.
    + rewrite HT. exact Hmin.
    + apply HL0.
    + lia.
    + apply IHl; [exact HL0|lia|]. intros k Hk. apply Hin. lia.
    + apply IHr; [exact HL0|lia|]. intros k Hk. apply Hin. lia.
Qed.

Lemma Forall_in64b (a : list Z) :
  forallb Machine64.in64b a = true -> Forall Machine64.in64 a.
Proof.
  induction a as [|x a IH]; cbn [forallb]; intros H; constructor.
  - unfold Machine64.in64b in H. unfold Machine64.in64. lia.
  - apply IH. destruct (Machine64.in64b x); [exact H|discriminate].
Qed.

Lemma Forall_in64_arrf (a : list Z) :
  Forall Machine64.in64 a ->
  forall k, 0 <= k < Vec.size a -> Machine64.in64 (arrf a k).
Proof.
  intros Ha k Hk. unfold arrf.
  pose proof (rd_get a k Hk) as Hrd. unfold Vec.rd in Hrd.
  destruct (Z.leb_spec 0 k); [|lia].
  rewrite Forall_lookup in Ha. apply (Ha _ _ Hrd).
Qed.

Lemma build_Inv64 (A : list Z) :
  A <> [] -> Forall Machine64.in64 A ->
  exists t, build A = Some t /\ Machine64.Inv t A /\ ar t = A.
Proof.
  intros HA Hin. destruct (build_Inv A HA) as (t & Hb & HI & Har & HL).
  destruct HI as (Hn & Ha & Hsa & Hsz & HR).
  exists t. split; [exact Hb|]. split; [|exact Har].
  repeat split; try apply Hsz; auto.
  apply (Rep_exact_to_64 _ _ _ _ _ _ _ 0 HR HL eq_refl).
  intros k Hk. apply Forall_in64_arrf; [exact Hin|lia].
Qed.

Lemma rangeMin_Inv64 (t : SegmentTree) (a : list Z) (l r : Z) :
  Machine64.Inv t a ->
  exists t', Machine64.rangeMin l r t = Some (qans (arrf a) 0 (n t - 1) l r, t') /\
    Machine64.Inv t' a /\ ar t' = ar t /\ n t' = n t.
Proof.
  intros (Hn & Ha & Har & Hsz & HR). unfold Machine64.rangeMin, depth_fuel.
  destruct (query64_spec (S (Z.to_nat (n t))) t _ _ 1 0 (n t - 1) l r Hsz HR
              ltac:(lia)) as (t' & Hq & Hsz' & Har' & Hn' & HR' & _).
  exists t'. split; [exact Hq|]. split; [|split; assumption].
  unfold Machine64.Inv. rewrite Hn', Har'. repeat split; try apply Hsz'; auto; lia.
Qed.

Lemma rangeUpdate_Inv64 (t : SegmentTree) (a a' : list Z) (l r v v' : Z) :
  Machine64.Inv t a ->
  Vec.size a' = Vec.size a ->
  (forall k, 0 <= k < Vec.size a -> arrf a' k = upd (arrf a) l r v' k) ->
  Machine64.wrap v = Machine64.wrap v' ->
  Forall Machine64.in64 a' ->
  exists t', Machine64.rangeUpdate (depth_fuel t) 1 0 (n t - 1) l r v t = Some t' /\
    Machine64.Inv t' a' /\ ar t' = ar t /\ n t' = n t.
Proof.
  intros (Hn & Ha & Har & Hsz & HR) Hsize Hval Hv Hin. unfold depth_fuel.
  destruct (rangeUpdate64_spec (S (Z.to_nat (n t))) t _ _ 1 0 (n t - 1) l r v v'
              Hsz HR Hv) as (t' & Hq & Hsz' & Har' & Hn' & _ & HR' & _).
  - intros k Hk. rewrite <- Hval by lia. apply Forall_in64_arrf; [exact Hin|lia].
  - lia.
  - exists t'. split; [exact Hq|]. split; [|split; assumption].
    unfold Machine64.Inv. rewrite Hn', Har'.
    repeat split; try apply Hsz'; auto; try lia.
    eapply Rep64_ext; [exact HR'|]. intros k Hk. symmetry. apply Hval. lia.
Qed.

Lemma updateRange_Inv64 (t : SegmentTree) (a : list Z) (l r v : Z) :
  Machine64.Inv t a ->
  Forall Machine64.in64 (Naive.rangeUpdate a l r v) ->
  exists t', Machine64.updateRange l r v t = Some t' /\
    Machine64.Inv t' (Naive.rangeUpdate a l r v) /\ ar t' = ar t /\ n t' = n t.
Proof.
  intros HI Hin. unfold Machine64.updateRange.
  apply (rangeUpdate_Inv64 t a _ l r v v HI); [|  |reflexivity|exact Hin].
  - apply size_rangeUpdate.
  - intros k Hk. apply arrf_rangeUpdate. exact Hk.
Qed.

Lemma pointUpdate_Inv64 (t : SegmentTree) (a : list Z) (i v : Z) :
  Machine64.Inv t a -> 0 <= i <= n t - 1 ->
  Forall Machine64.in64 (Naive.pointShift a (ar t) i v) ->
  exists t', Machine64.pointUpdate i v t = Some t' /\
    Machine64.Inv t' (Naive.pointShift a (ar t) i v) /\
    ar t' = <[Z.to_nat i := v]> (ar t) /\ n t' = n t.
Proof.
  intros HI Hi Hin. pose proof HI as (Hn & Ha & Har & Hsz & HR).
  unfold Machine64.pointUpdate. rewrite rd_get by lia. cbn [mbind option_bind].
  destruct (rangeUpdate_Inv64 t a (Naive.pointShift a (ar t) i v) i i
              (Machine64.sub64 v (Vec.get (ar t) i)) (v - Vec.get (ar t) i) HI)
    as (t1 & Hu & HI1 & Har1 & Hn1).
  - apply size_pointShift.
  - intros k Hk. apply arrf_pointShift. lia.
  - unfold Machine64.sub64. wrap_lia.
  - exact Hin.
  - rewrite Hu. cbn [mbind option_bind]. unfold set_ar.
    destruct (wr_ok (ar t1) i v) as (w & Hw & Hwsz & _); [rewrite Har1; lia|].
    rewrite Hw. simpl. eexists. split; [reflexivity|].
    assert (Hw' : w = <[Z.to_nat i := v]> (ar t)).
    { unfold Vec.wr in Hw. rewrite <- Har1.
      destruct ((0 <=? i) && (i <? Z.of_nat (length (ar t1)))); congruence. }
    destruct HI1 as (Hn' & Ha' & Har' & Hsz' & HR').
    split; [|split; [exact Hw'|exact Hn1]].
    unfold Machine64.Inv. simpl. repeat split; auto; try apply Hsz'. lia.
Qed.

Lemma reach64_Inv (t : SegmentTree) (a : list Z) :
  Machine64.reach t a -> Machine64.Inv t a /\ Forall Machine64.in64 a.
Proof.
  induction 1 as [A t HA Hin Hb|t a l r v t' _ [IH _] _ _ _ Hin Hu
                 |t a i v t' _ [IH _] Hi _ Hin Hu
                 |t a l r x t' _ [IH Hin] _ _ Hq].
  - destruct (build_Inv64 A HA Hin) as (t0 & Hb0 & HI & _).
    split; [congruence|exact Hin].
  - destruct (updateRange_Inv64 t a l r v IH Hin) as (t0 & Hu0 & HI & _).
    split; [congruence|exact Hin].
  - destruct (pointUpdate_Inv64 t a i v IH Hi Hin) as (t0 & Hu0 & HI & _).
    split; [congruence|exact Hin].
  - destruct (rangeMin_Inv64 t a l r IH) as (t0 & Hq0 & HI & _).
    split; [congruence|exact Hin].
Qed.

Lemma reach64_reachable (t : SegmentTree) (a : list Z) :
  Machine64.reach t a -> Machine64.reachable t.
Proof.
  induction 1; [eapply Machine64.m_build|eapply Machine64.m_updateRange
               |eapply Machine64.m_pointUpdate|eapply Machine64.m_rangeMin]; eauto.
Qed.


Lemma sample_reach64 : Machine64.reach sample_tree sample_array.
Proof.
  apply Machine64.reach_build; [discriminate| |reflexivity].
  apply Forall_in64b. vm_compute. reflexivity.
Qed.

(** * The properties that depend on the values, on 64-bit integers *)

(** ** One range update on a fresh tree *)




(** ** The node invariant *)

Lemma covers_Rep64 m T L f (k i lo hi : Z) :
  Machine64.Rep m T L f 1 0 (k - 1) 0 -> covers k i lo hi ->
  exists D, Machine64.Rep m T L f i lo hi D.
Proof.
  intros Hroot Hc. induction Hc as [|i lo hi _ [D IH] Hlt|i lo hi _ [D IH] Hlt].
  - exists 0. exact Hroot.
  - destruct IH as [|i lo hi D d Hi Hse HT Hf Hv Hd Hl Hr]; [lia|].
    rewrite midpoint_div by lia. eauto.
  - destruct IH as [|i lo hi D d Hi Hse HT Hf Hv Hd Hl Hr]; [lia|].
    rewrite midpoint_div by lia. eauto.
Qed.

Lemma overflow_tree_reachable : Machine64.reachable Machine64.overflow_tree.
Proof.
  eapply (Machine64.m_rangeMin _ 0 0).
  - eapply (Machine64.m_updateRange _ 0 1 1).
    + apply (Machine64.m_build [9223372036854775807; 0]);
        [discriminate|apply Forall_in64b; vm_compute; reflexivity|reflexivity].
    + lia.
    + vm_compute. discriminate.
    + unfold Machine64.in64. lia.
    + vm_compute. reflexivity.
  - lia.
  - vm_compute. discriminate.
  - vm_compute. reflexivity.
Qed.

(** C6, as stated, fails on 64-bit integers when an element overflows.  On
    [A = [2^63 - 1; 0]], after [updateRange(0, 1, 1)] and the query over
    [[0, 0]], which flushes the left leaf past the largest [long long],
    the root stores 1, its children store [-2^63] and 1, and nothing is
    pending: the root is not the minimum of its children. *)
Lemma node_invariant_broken_by_overflow :
  Machine64.reachable Machine64.overflow_tree /\
  covers (n Machine64.overflow_tree) 1 0 1 /\
  ~ Machine64.node_invariant Machine64.overflow_tree 1.
Proof.
  split; [exact overflow_tree_reachable|]. split; [exact (covers_root 2)|].
  intros H. specialize (H eq_refl). vm_compute in H. discriminate.
Qed.

(** C6 (internal nodes), amended: in every state reached from a
    construction by [updateRange], [pointUpdate] and [rangeMin] while every
    element of the array stays within [long long], for every internal node
    [i] of the tree (range [[lo, hi]] with [lo < hi]) whose own pending
    delta is zero, the stored value is the minimum of the two children's
    settled values, a child's settled value being its stored value plus its
    pending delta on 64 bits. *)
Theorem node_invariant_on_long_long (t : SegmentTree) (a : list Z) (i lo hi : Z) :
  Machine64.reach t a ->
  covers (n t) i lo hi -> lo < hi ->
  Machine64.node_invariant t i.
Proof.
  intros Hr Hc Hlt H0. apply reach64_Inv in Hr.
  destruct Hr as [(_ & _ & _ & _ & HR) _].
  destruct (covers_Rep64 _ _ _ _ _ _ _ _ HR Hc) as [D HRi].
  destruct (Rep64_children _ _ _ _ _ _ _ _ HRi ltac:(lia) H0) as [Hl Hr].
  destruct (Rep64_val _ _ _ _ _ _ _ _ HRi) as [Hv HT].
  destruct (Rep64_val _ _ _ _ _ _ _ _ Hl) as [Hvl _].
  destruct (Rep64_val _ _ _ _ _ _ _ _ Hr) as [Hvr _].
  rewrite H0, Z.add_0_r, wrap_id in Hv by exact HT.
  unfold Machine64.add64. rewrite Hvl, Hvr, Hv.
  destruct (Rep64_bounds _ _ _ _ _ _ _ _ Hl) as (_ & _ & _).
  rewrite (minrange_split (arrf a) lo ((lo + hi) / 2) hi) by (apply mid_bounds; lia).
  lia.
Qed.

Lemma node_invariant_on_long_long_witness :
  Machine64.node_invariant
    (default no_tree (build [0; 0] ≫= Machine64.updateRange 0 1 5)) 1.
Proof.
  apply (node_invariant_on_long_long _ (Naive.rangeUpdate [0; 0] 0 1 5) 1 0 1).
  - apply (Machine64.reach_updateRange two_zeros_tree [0; 0] 0 1 5).
    + apply Machine64.reach_build;
        [discriminate|apply Forall_in64b; vm_compute; reflexivity|reflexivity].
    + lia.
    + vm_compute. discriminate.
    + unfold Machine64.in64. lia.
    + apply Forall_in64b. vm_compute. reflexivity.
    + reflexivity.
  - exact (covers_root 2).
  - lia.
Defined.

(** ** Queries and updates in reachable states, on 64-bit integers *)

(** X1: In every state reached while the elements of the array stay within
    [long long], an in-range query over [[l, r]] on 64-bit integers returns
    the minimum over [[l, r]] of the logical array (the naive simulation of
    the history), capped by [INF = 10^18] unless the range is the whole
    array; the state after the query is reached in the same way, with the
    same logical array. *)
Theorem rangeMin_refines_naive (t : SegmentTree) (a : list Z) (l r : Z) :
  Machine64.reach t a ->
  0 <= l <= r -> r <= n t - 1 ->
  exists m t',
    Naive.rangeMin a l r = Some m /\
    Machine64.rangeMin l r t = Some (capped (n t) l r m, t') /\
    Machine64.reach t' a.
Proof.
  intros Hr Hl Hrr. destruct (reach64_Inv t a Hr) as [HI _].
  pose proof HI as (Hn & Ha & _).
  destruct (rangeMin_Inv64 t a l r HI) as (t' & Hq & _).
  exists (minrange (arrf a) l r), t'. split; [|split].
  - apply naive_rangeMin_minrange; lia.
  - rewrite Hq, qans_root_exact by lia. reflexivity.
  - apply (Machine64.reach_rangeMin t a l r _ t' Hr Hl Hrr Hq).
Qed.

Lemma rangeMin_refines_naive_witness :
  exists m t',
    Naive.rangeMin sample_array 2 5 = Some m /\
    Machine64.rangeMin 2 5 sample_tree =
      Some (capped (n sample_tree) 2 5 m, t') /\
    Machine64.reach t' sample_array.
Proof.
  apply (rangeMin_refines_naive sample_tree sample_array 2 5).
  - exact sample_reach64.
  - lia.
  - vm_compute. discriminate.
Defined.









(** ** [fromBinary] on 64-bit integers *)

Lemma wrap_period (z k : Z) :
  Machine64.wrap (z + 18446744073709551616 * k) = Machine64.wrap z.
Proof.
  unfold Machine64.wrap.
  replace (z + 18446744073709551616 * k + 9223372036854775808)
    with (z + 9223372036854775808 + k * 18446744073709551616) by lia.
  rewrite Z_mod_plus_full. reflexivity.
Qed.

Lemma wrap_decomp (z : Z) :
  exists k, Machine64.wrap z = z + 18446744073709551616 * k.
Proof.
  exists (- ((z + 9223372036854775808) / 18446744073709551616)).
  unfold Machine64.wrap. Z.div_mod_to_equations. lia.
Qed.

Lemma wrap_mul_add (x c y : Z) :
  Machine64.wrap (Machine64.wrap x * c + y) = Machine64.wrap (x * c + y).
Proof.
  destruct (wrap_decomp x) as [k ->].
  replace ((x + 18446744073709551616 * k) * c + y)
    with (x * c + y + 18446744073709551616 * (k * c)) by ring.
  apply wrap_period.
Qed.

Lemma wrap_add_wrap (x y : Z) :
  Machine64.wrap (x + Machine64.wrap y) = Machine64.wrap (x + y).
Proof.
  destruct (wrap_decomp y) as [k ->].
  rewrite Z.add_assoc. apply wrap_period.
Qed.

(** On 64 bits [fromBinary] computes the exact value modulo 2^64. *)
Lemma fromBinary64_from_wrap (s : Common.str) : forall x,
  Machine64.fromBinary_from (Machine64.wrap x) s =
  Machine64.wrap (Common.fromBinary_from x s).
Proof.
  unfold Machine64.fromBinary_from, Common.fromBinary_from.
  induction s as [|c s IH]; intros x; cbn [fold_left]; [reflexivity|].
  rewrite wrap_mul_add. apply IH.
Qed.

Lemma fromBinary64_wrap (s : Common.str) :
  Machine64.fromBinary s = Machine64.wrap (Common.fromBinary s).
Proof. apply (fromBinary64_from_wrap s 0). Qed.

Lemma fromBinary_bits_bound (s : Common.str) :
  Forall Common.is_bit s ->
  0 <= Common.fromBinary s < 2 ^ Z.of_nat (length s).
Proof.
  induction s as [|c s IH] using rev_ind; intros Hbits.
  - vm_compute. split; [discriminate|reflexivity].
  - apply Forall_app in Hbits. destruct Hbits as [Hs Hc].
    specialize (IH Hs). apply Forall_inv in Hc.
    unfold Common.fromBinary in *. rewrite fromBinary_from_app.
    rewrite length_app, Nat2Z.inj_add. cbn [length].
    change (Z.of_nat 1) with 1. rewrite Z.pow_add_r, Z.pow_1_r by lia.
    change (Common.fromBinary_from (Common.fromBinary_from 0 s) [c])
      with (Common.fromBinary_from 0 s * 2 + (Common.code c - Common.code "0")).
    assert (Hd : 0 <= Common.code c - Common.code "0" <= 1).
    { destruct Hc as [-> | ->]; vm_compute; split; discriminate. }
    lia.
Qed.

(** X19: On 64-bit integers [fromBinary] reads positionally, modulo 2^64:
    [fromBinary(a + b)] is the 64-bit value of
    [fromBinary(a) * 2^|b| + fromBinary(b)] for all strings [a] and [b]; a
    leading ['0'] does not change the value; and on a string of at most 63
    binary digits the result is the exact positional value, which is
    non-negative and below [2^|s|]. *)
Theorem fromBinary_app (a b : Common.str) :
  Machine64.fromBinary (a ++ b) =
    Machine64.wrap (Machine64.fromBinary a * 2 ^ Z.of_nat (length b) +
                    Machine64.fromBinary b) /\
  Machine64.fromBinary ("0"%char :: b) = Machine64.fromBinary b /\
  (Forall Common.is_bit a -> (length a <= 63)%nat ->
   Machine64.fromBinary a = Common.fromBinary a /\
   0 <= Machine64.fromBinary a < 2 ^ Z.of_nat (length a)).
Proof.
  split; [|split].
  - rewrite !fromBinary64_wrap, wrap_add_wrap, wrap_mul_add. f_equal.
    unfold Common.fromBinary at 1.
    rewrite fromBinary_from_app, fromBinary_from_shift. reflexivity.
  - reflexivity.
  - intros Hbits Hlen. pose proof (fromBinary_bits_bound a Hbits) as Hb.
    assert (Hp : 2 ^ Z.of_nat (length a) <= 2 ^ 63).
    { apply Z.pow_le_mono_r; lia. }
    change (2 ^ 63) with 9223372036854775808 in Hp.
    rewrite fromBinary64_wrap, wrap_id by (unfold Machine64.in64; lia).
    split; [reflexivity|exact Hb].
Qed.

Lemma canonical_bits (s : Common.str) :
  Common.canonical s -> Forall Common.is_bit s.
Proof.
  intros [->|(s' & -> & Hbits)].
  - constructor; [left; reflexivity|constructor].
  - constructor; [right; reflexivity|exact Hbits].
Qed.

(** X20: On a canonical binary string [s] (["0"], or ['1'] followed by
    binary digits) of at most 63 digits, [toBinary(fromBinary(s)) = s] on
    64-bit integers. *)
Theorem toBinary_fromBinary (s : Common.str) :
  Common.canonical s -> (length s <= 63)%nat ->
  Common.toBinary (Machine64.fromBinary s) = Some s.
Proof.
  intros Hc Hlen.
  pose proof (fromBinary_bits_bound s (canonical_bits s Hc)) as Hb.
  assert (Hp : 2 ^ Z.of_nat (length s) <= 2 ^ 63).
  { apply Z.pow_le_mono_r; lia. }
  change (2 ^ 63) with 9223372036854775808 in Hp.
  rewrite fromBinary64_wrap, wrap_id by (unfold Machine64.in64; lia).
  apply toBinary_fromBinary_exact. exact Hc.
Qed.

Lemma toBinary_fromBinary_witness :
  Common.toBinary
    (Machine64.fromBinary ["1"; "0"; "1"; "1"; "0"]%char)
  = Some ["1"; "0"; "1"; "1"; "0"]%char.
Proof.
  apply (toBinary_fromBinary ["1"; "0"; "1"; "1"; "0"]%char).
  - right. exists ["0"; "1"; "1"; "0"]%char. split; [reflexivity|].
    repeat constructor; (left; reflexivity) || (right; reflexivity).
  - simpl. lia.
Defined.

Lemma fromBinary_app_witness :
  Machine64.fromBinary ["1"; "0"; "1"]%char =
    Common.fromBinary ["1"; "0"; "1"]%char /\
  0 <= Machine64.fromBinary ["1"; "0"; "1"]%char
    < 2 ^ Z.of_nat (length ["1"; "0"; "1"]%char).
Proof.
  apply (proj2 (proj2 (fromBinary_app ["1"; "0"; "1"]%char []))).
  - repeat constructor; (left; reflexivity) || (right; reflexivity).
  - simpl. lia.
Defined.
